(** * The "hard" backend: a stream reader that reopens on read problems

    Shallow embedding of [Object.Open], [appendSeekOption],
    [hardReader.Read] and [hardReader.Close] of the backend registered as
    "hard" ("Forcibly fixup read problems on remote").

    The wrapped remote ([fs.Object] and the [io.ReadCloser] it hands out) is
    an interface in the source; here it is a type class over an explicit
    world state, so that every statement holds for every remote. *)

From Stdlib Require Import ZArith List Bool Lia String.
From Stdlib Require Import Strings.Byte.
From stdpp Require Import base list.
Import ListNotations.
Local Open Scope Z_scope.

(** ** int64 arithmetic *)

Definition min_int64 : Z := - 2 ^ 63.
Definition max_int64 : Z := 2 ^ 63 - 1.

Definition int64 (z : Z) : Prop := min_int64 <= z <= max_int64.

(** Two's complement wrap-around of a signed 64 bit integer. *)
Definition wrap64 (z : Z) : Z := (z + 2 ^ 63) mod 2 ^ 64 - 2 ^ 63.

(** [a + b] on [int64] operands, as Go computes it. *)
Definition add64 (a b : Z) : Z := wrap64 (a + b).

(** ** Errors *)

(** The [error] values the reader distinguishes: it compares against
    [io.EOF] and returns [chunkedreader.ErrorFileClosed]; every other error
    value is just "not nil". *)
Inductive error : Type :=
| EOF
| ErrorFileClosed
| ErrOther (msg : string).

Definition is_EOF (e : error) : bool :=
  match e with EOF => true | _ => false end.

(** ** Open options *)

(** [fs.OpenOption]: the two kinds the backend looks at, and the rest. *)
Inductive OpenOption : Type :=
| SeekOption (Offset : Z)
| RangeOption (Start End : Z)
| OtherOption (header : string).

(** The remote path stands for an [fs.Object]; a number for a stream the
    remote handed out. *)
Definition Obj : Type := string.
Definition Handle : Type := nat.

(** [fs.RangeOption.Decode] is part of package [fs] and not of this backend;
    the facade only passes its result on, so it stays a parameter. Its
    arguments are [Start], [End] and the size. *)
Class RangeDecoder : Type := Decode : Z -> Z -> Z -> Z * Z.

(** ** The wrapped remote

    [W] is the state of everything outside the reader. A call on the remote
    takes the world and returns the next one. [Open] returns a stream or a
    non-nil error, as the [fs.Object] interface asks; [Read] is given the
    length of the buffer and returns the bytes it put there ([n] is their
    number) with the error; [Size] takes no context, cannot fail and leaves
    the world as it is. *)
Class Remote (W : Type) : Type := {
  fs_Object_Size : W -> Obj -> Z;
  fs_Object_Open : W -> Obj -> list OpenOption -> (Handle + error) * W;
  ReadCloser_Read : W -> Handle -> nat -> (list byte * option error) * W;
  ReadCloser_Close : W -> Handle -> option error * W
}.

(** ** The reader *)

Record hardReader : Type := mkReader {
  o : option Obj;
  rc : option Handle;
  options : list OpenOption;
  offset : Z;
  limit : Z;
  eofReached : bool;
  closed : bool
}.

Definition set_rc (r : hardReader) (v : option Handle) : hardReader :=
  mkReader (o r) v (options r) (offset r) (limit r) (eofReached r) (closed r).

Definition set_offset (r : hardReader) (v : Z) : hardReader :=
  mkReader (o r) (rc r) (options r) v (limit r) (eofReached r) (closed r).

Definition set_eofReached (r : hardReader) (v : bool) : hardReader :=
  mkReader (o r) (rc r) (options r) (offset r) (limit r) v (closed r).

(** [appendSeekOption]. *)
Definition appendSeekOption (options : list OpenOption) (offset limit : Z)
  : list OpenOption :=
  if limit =? -1 then
    if 0 <? offset then options ++ [SeekOption offset] else options
  else
    if 0 <? offset then options ++ [RangeOption offset limit] else options.

(** What one turn of the [for] loop of [Read] ends with. *)
Inductive turn : Type :=
| Continue
| Return (n : Z) (data : list byte) (err : option error)
| Panic.

(** What a call of [Read] ends with. *)
Inductive outcome : Type :=
| Returned (n : Z) (data : list byte) (err : option error)
| Panicked.

Section Reader.
Context {W : Type} `{Remote W}.

(** The second half of the loop body: [n, err = r.rc.Read(p)] and the three
    ways out of it. *)
Definition read_stream (p : nat) (r : hardReader) (h : Handle) (w : W)
  : turn * hardReader * W :=
  let '((data, err), w1) := ReadCloser_Read w h p in
  let n := Z.of_nat (length data) in
  match err with
  | Some e =>
      if is_EOF e then
        (Return n data (Some e), set_eofReached r true, w1)
      else
        let r1 := set_rc r None in
        if 0 <? n then
          (Return n data None, set_offset r1 (add64 (offset r1) n), w1)
        else
          (Continue, r1, w1)
  | None =>
      (Return n data None, set_offset r (add64 (offset r) n), w1)
  end.

(** The first half of the loop body, [if r.rc == nil { ... }]: the stream to
    read from with the reader and world at that point, or the end of the
    turn. A nil [r.o] makes [r.o.Open] panic; a failed [Open] sets [r.rc]
    to nil and goes round again. *)
Definition open_if_nil (r : hardReader) (w : W)
  : (Handle * hardReader * W) + (turn * hardReader * W) :=
  match rc r with
  | None =>
      match o r with
      | None => inr (Panic, r, w)
      | Some obj =>
          let newOpts := [] ++ options r in
          let newOpts := appendSeekOption newOpts (offset r) (limit r) in
          match fs_Object_Open w obj newOpts with
          | (inr _, w1) => inr (Continue, set_rc r None, w1)
          | (inl h, w1) => inl (h, set_rc r (Some h), w1)
          end
      end
  | Some h => inl (h, r, w)
  end.

(** One turn of the loop. *)
Definition Read_turn (p : nat) (r : hardReader) (w : W)
  : turn * hardReader * W :=
  match open_if_nil r w with
  | inl (h, r1, w1) => read_stream p r1 h w1
  | inr stop => stop
  end.

(** The loop has no bound in the source; [fuel] bounds the number of turns
    and [None] means that they were all used up. *)
Fixpoint Read_loop (fuel : nat) (p : nat) (r : hardReader) (w : W)
  : option (outcome * hardReader * W) :=
  match fuel with
  | O => None
  | S fuel' =>
      match Read_turn p r w with
      | (Continue, r1, w1) => Read_loop fuel' p r1 w1
      | (Return n data err, r1, w1) => Some (Returned n data err, r1, w1)
      | (Panic, r1, w1) => Some (Panicked, r1, w1)
      end
  end.

(** [hardReader.Read]. The deferred debug log has no effect and is left
    out. *)
Definition hardReader_Read (fuel : nat) (p : nat) (r : hardReader) (w : W)
  : option (outcome * hardReader * W) :=
  if closed r then Some (Returned 0 [] (Some ErrorFileClosed), r, w)
  else if eofReached r then Some (Returned 0 [] (Some EOF), r, w)
  else if negb (limit r =? -1) && (limit r <=? offset r) then
    Some (Returned 0 [] (Some EOF), set_eofReached r true, w)
  else Read_loop fuel p r w.

(** [hardReader.Close]. *)
Definition hardReader_Close (r : hardReader) (w : W)
  : option error * hardReader * W :=
  if closed r then (Some ErrorFileClosed, r, w)
  else
    let '(err, w1) :=
      match rc r with
      | Some h => ReadCloser_Close w h
      | None => (None, w)
      end in
    (err,
     mkReader None None (options r) (offset r) (limit r) (eofReached r) true,
     w1).

(** The loop of [Object.Open] over the caller's options: the state is
    [(openOptions, offset, limit)]. *)
Definition Open_option `{RangeDecoder} (w : W) (obj : Obj)
  (st : list OpenOption * Z * Z) (option : OpenOption)
  : list OpenOption * Z * Z :=
  let '(openOptions, offset, limit) := st in
  match option with
  | SeekOption x => (openOptions, x, limit)
  | RangeOption s e =>
      let '(offset', limit') := Decode s e (fs_Object_Size w obj) in
      (openOptions, offset', limit')
  | _ => (openOptions ++ [option], offset, limit)
  end.

(** [Object.Open]: the wrapped object, the caller's options and the world
    go in; the reader, the (nil) error and the world come out. *)
Definition Object_Open `{RangeDecoder} (obj : Obj)
  (options : list OpenOption) (w : W)
  : hardReader * option error * W :=
  let '(openOptions, offset, limit) :=
    fold_left (Open_option w obj) options ([], 0, -1) in
  (mkReader (Some obj) None openOptions offset limit false false, None, w).

End Reader.

(** ** A scripted remote

    A remote that plays back a script and keeps a log of the calls it
    received, to run the reader on concrete scenarios. *)

Inductive call : Type :=
| CallOpen (obj : Obj) (opts : list OpenOption)
| CallRead (h : Handle) (p : nat)
| CallClose (h : Handle).

(** What the successive reads of one stream return, and what closing it
    returns. A stream whose script is used up reports [EOF]. *)
Record stream_script : Type := mkStream {
  reads : list (list byte * option error);
  close_err : option error
}.

(** [to_open]: what the coming [Open] calls get, an error or a new stream;
    when it is used up every [Open] fails. [streams]: the streams handed out,
    the handle being the position. [calls]: the log, oldest call first. *)
Record scripted : Type := mkScripted {
  size : Z;
  to_open : list (error + stream_script);
  streams : list stream_script;
  calls : list call
}.

Definition scripted_Open (w : scripted) (obj : Obj) (opts : list OpenOption)
  : (Handle + error) * scripted :=
  let log := calls w ++ [CallOpen obj opts] in
  match to_open w with
  | [] => (inr (ErrOther "unreachable"), mkScripted (size w) [] (streams w) log)
  | inl e :: rest => (inr e, mkScripted (size w) rest (streams w) log)
  | inr s :: rest =>
      (inl (length (streams w)),
       mkScripted (size w) rest (streams w ++ [s]) log)
  end.

Definition scripted_Read (w : scripted) (h : Handle) (p : nat)
  : (list byte * option error) * scripted :=
  let log := calls w ++ [CallRead h p] in
  match streams w !! h with
  | None =>
      (([], Some (ErrOther "bad handle")),
       mkScripted (size w) (to_open w) (streams w) log)
  | Some s =>
      match reads s with
      | [] => (([], Some EOF), mkScripted (size w) (to_open w) (streams w) log)
      | resp :: rest =>
          (resp,
           mkScripted (size w) (to_open w)
             (<[h := mkStream rest (close_err s)]> (streams w)) log)
      end
  end.

Definition scripted_Close (w : scripted) (h : Handle)
  : option error * scripted :=
  let log := calls w ++ [CallClose h] in
  (match streams w !! h with
   | None => Some (ErrOther "bad handle")
   | Some s => close_err s
   end,
   mkScripted (size w) (to_open w) (streams w) log).

(** The world after stream 0 was closed: only the log grows. *)
Definition calls_closed (w : scripted) : scripted :=
  mkScripted (size w) (to_open w) (streams w) (calls w ++ [CallClose 0%nat]).

#[export] Instance scripted_remote : Remote scripted := {
  fs_Object_Size w _ := size w;
  fs_Object_Open := scripted_Open;
  ReadCloser_Read := scripted_Read;
  ReadCloser_Close := scripted_Close
}.

(** A decoder to run [Object.Open] on examples: it takes [Start] and [End]
    as they are. It stands for no particular [fs] implementation. *)
Definition sample_decoder : RangeDecoder := fun s e _ => (s, e).

Definition bytes (s : string) : list byte := list_byte_of_string s.

(** ** The scenario of the ten byte object

    The object holds ["0123456789"]; the reader starts at offset 3 with limit
    8. The first [Open] fails; the second gives a stream that yields ["345"]
    and then a read error with no bytes; the third gives a stream that yields
    ["67"] and then the end of the data. *)

Definition scenario_world : scripted :=
  mkScripted 10
    [ inl (ErrOther "connection refused");
      inr (mkStream [ (bytes "345", None);
                      ([], Some (ErrOther "connection reset")) ] None);
      inr (mkStream [ (bytes "67", None); ([], Some EOF) ] None) ]
    [] [].

Definition the_file : Obj := "file"%string.

Definition scenario_reader : hardReader :=
  mkReader (Some the_file) None [] 3 8 false false.

(** The same, the second stream reporting the end of the data in the same
    read as ["67"]. *)
Definition scenario_world_eof_with_data : scripted :=
  mkScripted 10
    [ inl (ErrOther "connection refused");
      inr (mkStream [ (bytes "345", None);
                      ([], Some (ErrOther "connection reset")) ] None);
      inr (mkStream [ (bytes "67", Some EOF) ] None) ]
    [] [].

(** A remote whose first [Open] fails and whose stream then yields ["34"]
    together with a read error, and whose [Close] fails. *)
Definition broken_world : scripted :=
  mkScripted 10
    [ inl (ErrOther "connection refused");
      inr (mkStream [ (bytes "34", Some (ErrOther "connection reset")) ]
             (Some (ErrOther "close failed"))) ]
    [] [].

(** A reader at offset 0 with limit 3, and a remote whose stream yields
    ["012"] and then more; and that reader after it has read three bytes and
    was closed. *)
Definition edge_reader : hardReader :=
  mkReader (Some the_file) None [] 0 3 false false.

Definition edge_world : scripted :=
  mkScripted 10
    [ inr (mkStream [ (bytes "012", None); (bytes "345", None) ] None) ]
    [] [].

Definition edge_reader_closed : hardReader :=
  mkReader None None [] 3 3 false true.

(** A reader that holds stream 0, on a remote where closing that stream
    fails. *)
Definition open_reader : hardReader :=
  mkReader (Some the_file) (Some 0%nat) [] 6 8 false false.

Definition closing_world : scripted :=
  mkScripted 10 [] [ mkStream [] (Some (ErrOther "close failed")) ] [].

(** Successive [Read] calls, one for each buffer length of [ps], each with
    [fuel] turns at most: the outcomes, oldest first, with the last reader
    and world. [None] when a call does not come back. *)
Fixpoint Read_calls {W : Type} `{Remote W} (fuel : nat) (ps : list nat)
  (r : hardReader) (w : W) : option (list outcome * hardReader * W) :=
  match ps with
  | [] => Some ([], r, w)
  | p :: ps' =>
      match hardReader_Read fuel p r w with
      | None => None
      | Some (out, r1, w1) =>
          match Read_calls fuel ps' r1 w1 with
          | None => None
          | Some (outs, r2, w2) => Some (out :: outs, r2, w2)
          end
      end
  end.

(** The number of bytes a call delivered, and the sum over calls. *)
Definition delivered (out : outcome) : Z :=
  match out with
  | Returned n _ _ => n
  | Panicked => 0
  end.

Definition total_delivered (outs : list outcome) : Z :=
  fold_right (fun out acc => delivered out + acc) 0 outs.

(** None of the fast paths of [Read] applies: the call enters the loop. *)
Definition enters_loop (r : hardReader) : Prop :=
  closed r = false /\ eofReached r = false /\
  (limit r = -1 \/ offset r < limit r).

(** The loop of a [Read] call started at [(r, w)] comes to [(r', w')] at the
    head of a turn, every turn so far having ended in [continue]. *)
Inductive retries {W : Type} `{Remote W} (p : nat)
  : hardReader -> W -> hardReader -> W -> Prop :=
| retries_refl r w : retries p r w r w
| retries_step r w r1 w1 r2 w2 :
    Read_turn p r w = (Continue, r1, w1) ->
    retries p r1 w1 r2 w2 ->
    retries p r w r2 w2.

(** The options [Object.Open] looks at itself. *)
Definition is_directive (option : OpenOption) : bool :=
  match option with
  | SeekOption _ | RangeOption _ _ => true
  | OtherOption _ => false
  end.

(** The reader as [Close] leaves it. *)
Definition cleared (r : hardReader) : hardReader :=
  mkReader None None (options r) (offset r) (limit r) (eofReached r) true.

(** The error values a caller of [Read] may see. *)
Definition visible (err : option error) : Prop :=
  err = None \/ err = Some EOF \/ err = Some ErrorFileClosed.

(** What a turn of the loop does to the reader, by the way it ends. *)
Definition turn_effect (r : hardReader) (t : turn) (r1 : hardReader)
  : Prop :=
  o r1 = o r /\ options r1 = options r /\ limit r1 = limit r /\
  closed r1 = closed r /\
  match t with
  | Continue =>
      rc r1 = None /\ offset r1 = offset r /\
      eofReached r1 = eofReached r
  | Return n data err =>
      n = Z.of_nat (length data) /\
      (err = None /\ offset r1 = add64 (offset r) n /\
       eofReached r1 = eofReached r
        \/ err = Some EOF /\ offset r1 = offset r /\ eofReached r1 = true)
  | Panic => r1 = r
  end.

(** What a call of [Read] does to the reader, by the way it ends. *)
Definition call_effect (r : hardReader) (out : outcome) (r1 : hardReader)
  : Prop :=
  o r1 = o r /\ options r1 = options r /\ limit r1 = limit r /\
  closed r1 = closed r /\
  match out with
  | Returned n data err =>
      n = Z.of_nat (length data) /\
      (err = None /\ offset r1 = add64 (offset r) n /\
       eofReached r1 = eofReached r
       \/ err = Some EOF /\ offset r1 = offset r /\ eofReached r1 = true
       \/ err = Some ErrorFileClosed /\ r1 = r /\ closed r = true /\ n = 0)
  | Panicked => offset r1 = offset r /\ eofReached r1 = eofReached r
  end.

(** ** Failures of the remote, as the remote answers

    The attempts of one [Read] call that the remote lets fail, told by the
    answers of the remote alone. The call holds the stream [c], or none, in
    world [w]; [opts] are the options of each [Open]. An attempt fails when
    [Open] returns an error, or when the read on the stream held, or on the
    stream that [Open] has just given, returns no bytes and an error other
    than [EOF]. After a failure no stream is held. *)
Inductive failures {W : Type} `{Remote W} (p : nat) (obj : Obj)
  (opts : list OpenOption) : option Handle -> W -> option Handle -> W -> Prop :=
| failures_none c w : failures p obj opts c w c w
| failures_open w e w1 c' w' :
    fs_Object_Open w obj opts = (inr e, w1) ->
    failures p obj opts None w1 c' w' ->
    failures p obj opts None w c' w'
| failures_read_held h w e w2 c' w' :
    ReadCloser_Read w h p = (([], Some e), w2) ->
    is_EOF e = false ->
    failures p obj opts None w2 c' w' ->
    failures p obj opts (Some h) w c' w'
| failures_read_opened w h w1 e w2 c' w' :
    fs_Object_Open w obj opts = (inl h, w1) ->
    ReadCloser_Read w1 h p = (([], Some e), w2) ->
    is_EOF e = false ->
    failures p obj opts None w2 c' w' ->
    failures p obj opts None w c' w'.

(** The next attempt reaches a stream, the one held or one that [Open] with
    [opts] gives, and the read on it answers [(data, err)]. *)
Definition answered {W : Type} `{Remote W} (p : nat) (obj : Obj)
  (opts : list OpenOption) (c : option Handle) (w : W)
  (data : list byte) (err : option error) (w' : W) : Prop :=
  match c with
  | Some h => ReadCloser_Read w h p = ((data, err), w')
  | None =>
      exists h w1,
        fs_Object_Open w obj opts = (inl h, w1) /\
        ReadCloser_Read w1 h p = ((data, err), w')
  end.

(** The error [Read] returns for the error of a read that it does not try
    again. *)
Definition surfaced (err : option error) : option error :=
  match err with
  | Some EOF => Some EOF
  | _ => None
  end.

(** A reader at the last [int64] offset, as [Object.Open] makes it for a
    seek to that offset, and a remote whose stream yields one byte. *)
Definition last_offset_reader : hardReader :=
  mkReader (Some the_file) None [] max_int64 (-1) false false.

Definition one_byte_world : scripted :=
  mkScripted 10 [ inr (mkStream [ (bytes "x", None) ] None) ] [] [].

(** An option that [Object.Open] passes on. *)
Definition is_passthrough (option : OpenOption) : bool :=
  negb (is_directive option).

(** ** The caller's side

    What the holder of the [io.ReadCloser] can do with it, and what comes
    back. *)

Inductive op : Type :=
| OpRead (p : nat)
| OpClose.

Inductive op_result : Type :=
| ReadResult (out : outcome)
| CloseResult (err : option error).

(** The operations of [ops] one after the other; [None] when a [Read] does
    not come back within [fuel] turns. *)
Fixpoint run_ops {W : Type} `{Remote W} (fuel : nat) (ops : list op)
  (r : hardReader) (w : W) : option (list op_result * hardReader * W) :=
  match ops with
  | [] => Some ([], r, w)
  | OpRead p :: ops' =>
      match hardReader_Read fuel p r w with
      | None => None
      | Some (out, r1, w1) =>
          match run_ops fuel ops' r1 w1 with
          | None => None
          | Some (res, r2, w2) => Some (ReadResult out :: res, r2, w2)
          end
      end
  | OpClose :: ops' =>
      let '(err, r1, w1) := hardReader_Close r w in
      match run_ops fuel ops' r1 w1 with
      | None => None
      | Some (res, r2, w2) => Some (CloseResult err :: res, r2, w2)
      end
  end.

(** What an operation on a closed reader gives. *)
Definition refused (x : op) : op_result :=
  match x with
  | OpRead _ => ReadResult (Returned 0 [] (Some ErrorFileClosed))
  | OpClose => CloseResult (Some ErrorFileClosed)
  end.

(** The bytes by which a call moves the offset: those it returned with a nil
    error. *)
Definition advanced (out : outcome) : Z :=
  match out with
  | Returned n _ None => n
  | _ => 0
  end.

Definition total_advanced (outs : list outcome) : Z :=
  fold_right (fun out acc => advanced out + acc) 0 outs.

(** The same remote with another [Close] for its streams. *)
Definition with_Close {W : Type} (R : Remote W)
  (close : W -> Handle -> option error * W) : Remote W := {|
  fs_Object_Size := @fs_Object_Size W R;
  fs_Object_Open := @fs_Object_Open W R;
  ReadCloser_Read := @ReadCloser_Read W R;
  ReadCloser_Close := close
|}.

(** ** The wrapping Fs

    [Fs] of this backend embeds the [fs.Fs] it wraps and hands every call to
    it; objects that come out of [List] and [NewObject] are wrapped in
    [Object], and [Copy] and [Move] unwrap them again. *)

(** The errors of package [fs] these functions return themselves, and any
    other error of the wrapped remote. *)
Inductive fs_error : Type :=
| ErrorCantCopy
| ErrorCantMove
| FsError (msg : string).

Record Fs : Type := mkFs {
  name : string;
  root : string
}.

(** An [fs.Object] that is not nil: the object of another backend, or an
    [Object] of this one, which holds the object it wraps and the [Fs] it is
    in. [ObjectOfNil] is an [Object] whose wrapped object is nil. Where Go
    can have a nil [fs.Object] the type is [option fs_Object]. *)
Inductive fs_Object : Type :=
| Foreign (id : Obj)
| Object (Object_ : fs_Object) (f : Fs)
| ObjectOfNil (f : Fs).

(** An [fs.DirEntry]: an object or a directory. *)
Inductive DirEntry : Type :=
| EntryObject (x : fs_Object)
| EntryDirectory (remote : string).

(** The wrapped [fs.Fs]. [List] and [NewObject] return a value and an error
    as in Go; [Features().Copy] and [Features().Move] are nil or a
    function. *)
Class Wrapped (W : Type) : Type := {
  Fs_List : W -> string -> (list DirEntry * option fs_error) * W;
  Fs_NewObject : W -> string -> (option fs_Object * option fs_error) * W;
  Features_Copy :
    option (W -> option fs_Object -> string
            -> (option fs_Object * option fs_error) * W);
  Features_Move :
    option (W -> option fs_Object -> string
            -> (option fs_Object * option fs_error) * W)
}.

(** [Object.UnWrap]: the wrapped object, which may be nil. An object of
    another backend stands for itself. *)
Definition UnWrap (x : fs_Object) : option fs_Object :=
  match x with
  | Object inner _ => Some inner
  | ObjectOfNil _ => None
  | Foreign _ => Some x
  end.

Section WrappingFs.
Context {W : Type} `{Wrapped W}.

(** [Fs.List]. *)
Definition Fs_hard_List (f : Fs) (dir : string) (w : W)
  : list DirEntry * option fs_error * W :=
  let '((ret, err), w1) := Fs_List w dir in
  match err with
  | Some e => ([], Some e, w1)
  | None =>
      (fold_left
         (fun entries x =>
            match x with
            | EntryObject obj => entries ++ [EntryObject (Object obj f)]
            | _ => entries ++ [x]
            end)
         ret [],
       None, w1)
  end.

(** [Fs.NewObject]. *)
Definition Fs_hard_NewObject (f : Fs) (remote : string) (w : W)
  : option fs_Object * option fs_error * W :=
  let '((obj, err), w1) := Fs_NewObject w remote in
  match err with
  | Some e => (None, Some e, w1)
  | None =>
      (Some match obj with
            | Some x => Object x f
            | None => ObjectOfNil f
            end,
       None, w1)
  end.

(** [Fs.Copy]. *)
Definition Fs_hard_Copy (f : Fs) (src : fs_Object) (remote : string) (w : W)
  : option fs_Object * option fs_error * W :=
  match Features_Copy with
  | None => (None, Some ErrorCantCopy, w)
  | Some do =>
      match src with
      | Object inner _ =>
          let '((dst, err), w1) := do w (Some inner) remote in (dst, err, w1)
      | ObjectOfNil _ =>
          let '((dst, err), w1) := do w None remote in (dst, err, w1)
      | Foreign _ => (None, Some ErrorCantCopy, w)
      end
  end.

(** [Fs.Move]. *)
Definition Fs_hard_Move (f : Fs) (src : fs_Object) (remote : string) (w : W)
  : option fs_Object * option fs_error * W :=
  match Features_Move with
  | None => (None, Some ErrorCantMove, w)
  | Some do =>
      match src with
      | Object inner _ =>
          let '((dst, err), w1) := do w (Some inner) remote in (dst, err, w1)
      | ObjectOfNil _ =>
          let '((dst, err), w1) := do w None remote in (dst, err, w1)
      | Foreign _ => (None, Some ErrorCantMove, w)
      end
  end.

End WrappingFs.

(** The [Object] around a wrapped object that may be nil. *)
Definition Object_or_nil (obj : option fs_Object) (f : Fs) : fs_Object :=
  match obj with
  | Some x => Object x f
  | None => ObjectOfNil f
  end.

Definition wrap_entry (f : Fs) (x : DirEntry) : DirEntry :=
  match x with
  | EntryObject obj => EntryObject (Object obj f)
  | EntryDirectory _ => x
  end.

Definition unwrap_entry (x : DirEntry) : DirEntry :=
  match x with
  | EntryObject obj =>
      match UnWrap obj with
      | Some inner => EntryObject inner
      | None => x
      end
  | EntryDirectory _ => x
  end.

(** A wrapped remote for examples: it lists one file and one directory
    and copies by giving the source back. *)
#[export] Instance sample_wrapped : Wrapped unit := {
  Fs_List _ _ :=
    (([EntryObject (Foreign "a.txt"%string); EntryDirectory "sub"], None), tt);
  Fs_NewObject _ remote := ((Some (Foreign remote), None), tt);
  Features_Copy := Some (fun _ src _ => ((src, None), tt));
  Features_Move := None
}.

(** ** The alist backend *)

Module alist.

Inductive alist_error : Type :=
| ErrorObjectNotFound
| InstanceSays (message : string) (code : Z)
| Transport (e : error).

Record Fs : Type := mkFs {
  name : string;
  root : string
}.

(** [ListContent] and [ListResponse] with [ListData] folded in. *)
Record ListContent : Type := mkContent {
  IsDir : bool;
  Modified : string;
  Name : string;
  Size : Z
}.

Record ListResponse : Type := mkResponse {
  Code : Z;
  Content : list ListContent;
  Message : string
}.

(** What the backend takes from outside: [time.Parse] for RFC 3339 with the
    time type, [path.Join], and the REST client. [CallJSON_list] is the call
    to [/api/fs/list] for a path and a page, thirty entries a page; [Call] is
    the GET of a path with open options, which gives the body or an error. *)
Class Env (W : Type) : Type := {
  time_Time : Type;
  timeUnset : time_Time;
  time_Parse : string -> option time_Time;
  path_Join : list string -> string;
  CallJSON_list : W -> string -> Z -> (ListResponse + error) * W;
  Call : W -> string -> list OpenOption -> (Handle + error) * W
}.

Section Backend.
Context {W : Type} `{Env W}.

Record Object : Type := mkObject {
  fs : Fs;
  remote : string;
  remotePath : string;
  modTime : time_Time;
  size : Z
}.

(** The entries [List] returns: [fs.NewDir] of a name and a time, or an
    [Object]. *)
Inductive entry : Type :=
| Dir (rname : string) (mtime : time_Time)
| File (obj : Object).

(** The body of the loop over the content of one page. *)
Definition add_item (f : Fs) (dir : string) (entries : list entry)
  (item : ListContent) : list entry :=
  let mtime :=
    match time_Parse (Modified item) with
    | Some t => t
    | None => timeUnset
    end in
  let rname := path_Join [dir; Name item] in
  if IsDir item then entries ++ [Dir rname mtime]
  else
    entries
    ++ [File (mkObject f rname (path_Join [root f; dir; Name item])
                mtime (Size item))].

(** The loop over the pages of [List], from [page] on, with the entries so
    far; [fuel] bounds the number of pages. *)
Fixpoint List_pages (fuel : nat) (f : Fs) (dir remoteDir : string)
  (page : Z) (entries : list entry) (w : W)
  : option (list entry * option alist_error * W) :=
  match fuel with
  | O => None
  | S fuel' =>
      match CallJSON_list w remoteDir page with
      | (inr e, w1) => Some (entries, Some (Transport e), w1)
      | (inl temp, w1) =>
          if Code temp =? 500 then Some ([], Some ErrorObjectNotFound, w1)
          else if negb (Code temp =? 200) then
            Some (entries, Some (InstanceSays (Message temp) (Code temp)), w1)
          else
            let entries := fold_left (add_item f dir) (Content temp) entries in
            if (length (Content temp) <? 30)%nat then Some (entries, None, w1)
            else List_pages fuel' f dir remoteDir (add64 page 1) entries w1
      end
  end.

(** [Fs.List]. [json.Marshal] of the request cannot fail on these values
    and is left out. *)
Definition List (fuel : nat) (f : Fs) (dir : string) (w : W)
  : option (list entry * option alist_error * W) :=
  List_pages fuel f dir (path_Join ["/"%string; root f; dir]) 1 [] w.

(** The loop of [Object.Open] over the options. *)
Definition optionsFixed (o : Object) (options : list OpenOption)
  : list OpenOption :=
  fold_left
    (fun fixed opt =>
       match opt with
       | RangeOption Start End =>
           if (size o =? 0) && (Start =? 0) && (0 <? End) then fixed
           else fixed ++ [opt]
       | _ => fixed ++ [opt]
       end)
    options [].

(** [Object.Open]. *)
Definition Open (o : Object) (options : list OpenOption) (w : W)
  : (Handle + error) * W :=
  match Call w (path_Join ["/"%string; remotePath o]) (optionsFixed o options)
  with
  | (inr e, w1) => (inr e, w1)
  | (inl body, w1) => (inl body, w1)
  end.

(** The entries that the content of the pages [resps] gives. *)
Definition entries_of (f : Fs) (dir : string) (resps : list ListResponse)
  : list entry :=
  fold_left (fun entries temp => fold_left (add_item f dir) (Content temp) entries)
    resps [].

(** A page that is followed by another one. *)
Definition full_page (temp : ListResponse) : Prop :=
  Code temp = 200 /\ length (Content temp) = 30%nat.

(** The server answers the calls for [page], the page after it and so on
    with [resps], and the next call would be for [page']. *)
Inductive serves (remoteDir : string)
  : Z -> W -> list ListResponse -> Z -> W -> Prop :=
| serves_nil page w : serves remoteDir page w [] page w
| serves_cons page w temp w1 resps page' w' :
    CallJSON_list w remoteDir page = (inl temp, w1) ->
    serves remoteDir (add64 page 1) w1 resps page' w' ->
    serves remoteDir page w (temp :: resps) page' w'.

End Backend.

(** A server for examples: it plays back the answers it holds, and fails
    when it has none left. Times are kept as their text and paths are put
    together with slashes; neither stands for the Go library. *)
#[global] Instance playback : Env (list (ListResponse + error)) := {
  time_Time := string;
  timeUnset := "1970-01-01T00:00:00Z"%string;
  time_Parse s := if String.eqb s "" then None else Some s;
  path_Join parts := String.concat "/" parts;
  CallJSON_list w _ _ :=
    match w with
    | [] => (inr (ErrOther "no answer"), [])
    | x :: rest => (x, rest)
    end;
  Call w _ _ := (inr (ErrOther "no answer"), w)
}.

End alist.

(** Answers for examples: a full page of thirty files and a page of one. *)
Definition sample_item : alist.ListContent :=
  alist.mkContent false "2022-09-25T12:41:37Z" "a.txt" 7.

Definition sample_full_page : alist.ListResponse :=
  alist.mkResponse 200 (repeat sample_item 30) "success".

Definition sample_short_page : alist.ListResponse :=
  alist.mkResponse 200 [sample_item] "success".

Definition sample_alist_Fs : alist.Fs := alist.mkFs "alist" "pub".

Definition sample_file (size : Z) : @alist.Object _ alist.playback :=
  @alist.mkObject _ alist.playback sample_alist_Fs "a.txt" "pub/a.txt"
    (@alist.timeUnset _ alist.playback) size.

Definition pages_then (last : alist.ListResponse)
  : list (alist.ListResponse + error) :=
  [inl sample_full_page; inl last].

(** ** A remote that serves the bytes of the object

    The byte position that a list of open options asks a stream to start
    at: the offset of the last seek or the start of the last range, 0
    without either. *)
Definition requested_start (opts : list OpenOption) : Z :=
  fold_left
    (fun start opt =>
       match opt with
       | SeekOption x => x
       | RangeOption s _ => s
       | OtherOption _ => start
       end)
    opts 0.

(** The streams of the remote serve the object [obj] with the bytes
    [content]: [pos w h] being the position of stream [h] in world [w], a
    stream starts where the options of its [Open] ask, and a read returns
    the bytes that follow the position, error or not, and moves the position
    behind them. *)
Definition serves_content {W : Type} `{Remote W} (obj : Obj)
  (content : list byte) (pos : W -> Handle -> Z) : Prop :=
  (forall w opts h w1,
      fs_Object_Open w obj opts = (inl h, w1) ->
      pos w1 h = requested_start opts) /\
  (forall w h p data err w1,
      ReadCloser_Read w h p = ((data, err), w1) ->
      (exists rest, skipn (Z.to_nat (pos w h)) content = data ++ rest) /\
      pos w1 h = pos w h + Z.of_nat (length data)).

(** The reader is in step with the remote: it has the object, passes on no
    seek or range of its own, its offset is a position, and the stream it
    holds, if any, stands at the offset. *)
Definition in_step {W : Type} (obj : Obj) (pos : W -> Handle -> Z)
  (r : hardReader) (w : W) : Prop :=
  o r = Some obj /\ forallb is_passthrough (options r) = true /\
  0 <= offset r <= max_int64 /\
  (forall h, rc r = Some h -> pos w h = offset r).

(** What a turn, the loop or a call gives when the reader is in step: the
    bytes are those that follow the offset, and after a nil error the
    reader is in step again. *)
Definition served {W : Type} (obj : Obj) (content : list byte)
  (pos : W -> Handle -> Z) (r : hardReader) (data : list byte)
  (err : option error) (r1 : hardReader) (w1 : W) : Prop :=
  (exists rest, skipn (Z.to_nat (offset r)) content = data ++ rest) /\
  (err = None -> in_step obj pos r1 w1).

(** The bytes a call put into the buffer. *)
Definition data_of (out : outcome) : list byte :=
  match out with
  | Returned _ data _ => data
  | Panicked => []
  end.

(** A remote of that kind for examples. It holds the position of every
    stream it has opened, and a list of faults: each [Open] and each [Read]
    takes the next one, and on [true] the [Open] fails and the [Read] returns
    an error after half of the bytes it would have given. *)
Record content_world : Type := mkContentWorld {
  positions : list Z;
  faults : list bool
}.

Definition content_Open (w : content_world) (obj : Obj)
  (opts : list OpenOption) : (Handle + error) * content_world :=
  match faults w with
  | true :: rest => (inr (ErrOther "refused"), mkContentWorld (positions w) rest)
  | _ =>
      (inl (length (positions w)),
       mkContentWorld (positions w ++ [requested_start opts])
         (tl (faults w)))
  end.

Definition content_Read (content : list byte) (w : content_world)
  (h : Handle) (p : nat) : (list byte * option error) * content_world :=
  match positions w !! h with
  | None => (([], Some (ErrOther "bad handle")), w)
  | Some q =>
      let fault := match faults w with true :: _ => true | _ => false end in
      let want := if fault then Nat.div2 p else p in
      let data := firstn want (skipn (Z.to_nat q) content) in
      let err :=
        if fault then Some (ErrOther "reset")
        else match data with [] => Some EOF | _ => None end in
      ((data, err),
       mkContentWorld (<[h := q + Z.of_nat (length data)]> (positions w))
         (tl (faults w)))
  end.

Definition content_remote (content : list byte) : Remote content_world := {|
  fs_Object_Size _ _ := Z.of_nat (length content);
  fs_Object_Open := content_Open;
  ReadCloser_Read := content_Read content;
  ReadCloser_Close w _ := (None, w)
|}.

Definition content_pos (w : content_world) (h : Handle) : Z :=
  match positions w !! h with
  | Some q => q
  | None => 0
  end.

Definition ten_bytes : list byte := bytes "0123456789".

(** A reader from offset 3 without limit, on a remote that refuses the first
    [Open] and breaks the second read. *)
Definition content_reader : hardReader :=
  mkReader (Some the_file) None [OtherOption "x"] 3 (-1) false false.

Definition faulty_world : content_world :=
  mkContentWorld [] [true; false; false; true; false].

(** * Properties *)

(** Takes an equation between results apart and substitutes. *)
Ltac invert_result Heq := inversion Heq; subst; clear Heq.

(** ** int64 *)

Lemma wrap64_in_range (z : Z) : int64 z -> wrap64 z = z.
Proof.
  unfold int64, min_int64, max_int64, wrap64. intros Hz.
  rewrite Z.mod_small; lia.
Qed.

Lemma wrap64_int64 (z : Z) : int64 (wrap64 z).
Proof.
  unfold int64, min_int64, max_int64, wrap64.
  pose proof (Z.mod_pos_bound (z + 2 ^ 63) (2 ^ 64) ltac:(lia)). lia.
Qed.

Lemma add64_no_overflow (a n : Z) :
  int64 a -> 0 <= n -> a + n <= max_int64 -> add64 a n = a + n.
Proof.
  intros Ha Hn Hmax. unfold add64. apply wrap64_in_range.
  unfold int64 in *. lia.
Qed.

(** ** Option derivation *)

(** C1. [appendSeekOption] is a function of the options, the offset and the
    limit with four cases: offset 0 without limit gives the options back;
    a positive offset without limit appends one seek to that offset; a
    positive offset with a limit appends one range from the offset to the
    limit; offset 0 with a limit gives the options back. *)
Theorem appendSeekOption_cases (options : list OpenOption) (offset limit : Z) :
  (offset = 0 -> limit = -1 ->
   appendSeekOption options offset limit = options) /\
  (0 < offset -> limit = -1 ->
   appendSeekOption options offset limit = options ++ [SeekOption offset]) /\
  (0 < offset -> limit <> -1 ->
   appendSeekOption options offset limit
   = options ++ [RangeOption offset limit]) /\
  (offset = 0 -> limit <> -1 ->
   appendSeekOption options offset limit = options).
Proof.
  unfold appendSeekOption.
  split; [|split; [|split]]; intros Hoff Hlim;
    destruct (Z.eqb_spec limit (-1)); destruct (Z.ltb_spec 0 offset);
    try reflexivity; lia.
Qed.

Lemma appendSeekOption_cases_witness :
  appendSeekOption [OtherOption "h"] 0 (-1) = [OtherOption "h"] /\
  appendSeekOption [OtherOption "h"] 100 (-1)
  = [OtherOption "h"; SeekOption 100] /\
  appendSeekOption [OtherOption "h"] 100 500
  = [OtherOption "h"; RangeOption 100 500] /\
  appendSeekOption [OtherOption "h"] 0 500 = [OtherOption "h"].
Proof.
  pose proof (appendSeekOption_cases [OtherOption "h"] 0 (-1)) as (A & _).
  pose proof (appendSeekOption_cases [OtherOption "h"] 100 (-1)) as (_ & B & _).
  pose proof (appendSeekOption_cases [OtherOption "h"] 100 500) as (_ & _ & C & _).
  pose proof (appendSeekOption_cases [OtherOption "h"] 0 500) as (_ & _ & _ & D).
  split; [|split; [|split]].
  - apply A; reflexivity.
  - apply B; [lia | reflexivity].
  - apply C; lia.
  - apply D; [reflexivity | lia].
Defined.

(** An offset below zero adds nothing either. *)
Lemma appendSeekOption_not_positive (options : list OpenOption)
  (offset limit : Z) :
  offset <= 0 -> appendSeekOption options offset limit = options.
Proof.
  intros Hoff. unfold appendSeekOption.
  destruct (Z.ltb_spec 0 offset); [lia|]. now destruct (limit =? -1).
Qed.

Section ReaderFacts.
Context {W : Type} `{Remote W}.

(** ** Record bookkeeping *)

Lemma set_rc_same (r : hardReader) : set_rc r (rc r) = r.
Proof. now destruct r. Qed.

Lemma set_eofReached_same (r : hardReader) :
  set_eofReached r (eofReached r) = r.
Proof. now destruct r. Qed.

(** ** The fast paths of [Read] *)

Lemma Read_closed (fuel p : nat) (r : hardReader) (w : W) :
  closed r = true ->
  hardReader_Read fuel p r w
  = Some (Returned 0 [] (Some ErrorFileClosed), r, w).
Proof. unfold hardReader_Read. intros ->. reflexivity. Qed.

Lemma Read_at_eof (fuel p : nat) (r : hardReader) (w : W) :
  closed r = false -> eofReached r = true ->
  hardReader_Read fuel p r w = Some (Returned 0 [] (Some EOF), r, w).
Proof. unfold hardReader_Read. intros -> ->. reflexivity. Qed.

Lemma Read_limit_reached (fuel p : nat) (r : hardReader) (w : W) :
  closed r = false -> limit r <> -1 -> limit r <= offset r ->
  hardReader_Read fuel p r w
  = Some (Returned 0 [] (Some EOF), set_eofReached r true, w).
Proof.
  unfold hardReader_Read. intros -> Hlim Hle.
  destruct (eofReached r) eqn:Heof.
  - rewrite <- Heof, set_eofReached_same. reflexivity.
  - destruct (Z.eqb_spec (limit r) (-1)); [contradiction|].
    destruct (Z.leb_spec (limit r) (offset r)); [reflexivity | lia].
Qed.

(** C2. [Read] checks its fast paths before any call on the remote, in this
    order: a closed reader fails with [ErrorFileClosed]; a reader at the end
    of the stream returns [(0, EOF)]; a reader with a limit that the offset
    has reached sets [eofReached] and returns [(0, EOF)]. The world is the
    one the call started in, and no turn of the loop is needed. *)
Theorem Read_fast_paths (fuel p : nat) (r : hardReader) (w : W) :
  (closed r = true ->
   hardReader_Read fuel p r w
   = Some (Returned 0 [] (Some ErrorFileClosed), r, w)) /\
  (closed r = false -> eofReached r = true ->
   hardReader_Read fuel p r w = Some (Returned 0 [] (Some EOF), r, w)) /\
  (closed r = false -> limit r <> -1 -> limit r <= offset r ->
   hardReader_Read fuel p r w
   = Some (Returned 0 [] (Some EOF), set_eofReached r true, w)).
Proof.
  split; [|split].
  - apply Read_closed.
  - apply Read_at_eof.
  - apply Read_limit_reached.
Qed.

Lemma Read_enters_loop (fuel p : nat) (r : hardReader) (w : W) :
  enters_loop r -> hardReader_Read fuel p r w = Read_loop fuel p r w.
Proof.
  intros (Hc & He & Hl). unfold hardReader_Read. rewrite Hc, He.
  destruct Hl as [-> | Hlt]; [reflexivity|].
  destruct (Z.leb_spec (limit r) (offset r)); [lia|].
  now rewrite andb_false_r.
Qed.

(** ** Fuel *)

Lemma Read_loop_more_fuel (fuel fuel' p : nat) (r : hardReader) (w : W)
  (res : outcome * hardReader * W) :
  Read_loop fuel p r w = Some res -> (fuel <= fuel')%nat ->
  Read_loop fuel' p r w = Some res.
Proof.
  revert fuel' r w. induction fuel as [|fuel IH]; intros fuel' r w Hrun Hle.
  - discriminate.
  - destruct fuel' as [|fuel']; [lia|]. simpl in *.
    destruct (Read_turn p r w) as [[[ | n data err | ] r1] w1]; auto.
    apply IH; [assumption | lia].
Qed.

Lemma Read_more_fuel (fuel fuel' p : nat) (r : hardReader) (w : W)
  (res : outcome * hardReader * W) :
  hardReader_Read fuel p r w = Some res -> (fuel <= fuel')%nat ->
  hardReader_Read fuel' p r w = Some res.
Proof.
  unfold hardReader_Read.
  destruct (closed r); [auto|]. destruct (eofReached r); [auto|].
  destruct (negb (limit r =? -1) && (limit r <=? offset r)); [auto|].
  apply Read_loop_more_fuel.
Qed.

(** ** One read on the stream *)

Lemma read_stream_ok (p : nat) (r : hardReader) (h : Handle) (w w1 : W)
  (data : list byte) :
  ReadCloser_Read w h p = ((data, None), w1) ->
  read_stream p r h w
  = (Return (Z.of_nat (length data)) data None,
     set_offset r (add64 (offset r) (Z.of_nat (length data))), w1).
Proof. intros Hrd. unfold read_stream. now rewrite Hrd. Qed.

Lemma read_stream_eof (p : nat) (r : hardReader) (h : Handle) (w w1 : W)
  (data : list byte) :
  ReadCloser_Read w h p = ((data, Some EOF), w1) ->
  read_stream p r h w
  = (Return (Z.of_nat (length data)) data (Some EOF),
     set_eofReached r true, w1).
Proof. intros Hrd. unfold read_stream. now rewrite Hrd. Qed.

Lemma read_stream_err_bytes (p : nat) (r : hardReader) (h : Handle)
  (w w1 : W) (data : list byte) (e : error) :
  ReadCloser_Read w h p = ((data, Some e), w1) ->
  is_EOF e = false -> data <> [] ->
  read_stream p r h w
  = (Return (Z.of_nat (length data)) data None,
     set_offset (set_rc r None)
       (add64 (offset r) (Z.of_nat (length data))), w1).
Proof.
  intros Hrd He Hdata. unfold read_stream. rewrite Hrd, He.
  destruct data as [|b data]; [contradiction|].
  destruct (Z.ltb_spec 0 (Z.of_nat (length (b :: data)))) as [_|Hn];
    [reflexivity|].
  simpl length in Hn. lia.
Qed.

Lemma read_stream_err_zero (p : nat) (r : hardReader) (h : Handle)
  (w w1 : W) (e : error) :
  ReadCloser_Read w h p = (([], Some e), w1) ->
  is_EOF e = false ->
  read_stream p r h w = (Continue, set_rc r None, w1).
Proof. intros Hrd He. unfold read_stream. now rewrite Hrd, He. Qed.

Lemma read_stream_effect (p : nat) (r : hardReader) (h : Handle) (w : W)
  (t : turn) (r1 : hardReader) (w1 : W) :
  read_stream p r h w = (t, r1, w1) -> t <> Panic /\ turn_effect r t r1.
Proof.
  unfold read_stream, turn_effect.
  destruct (ReadCloser_Read w h p) as [[data [e|]] w'].
  - destruct e; simpl is_EOF; cbv iota.
    + intros Heq; invert_result Heq. simpl. intuition congruence.
    + destruct (0 <? _); intros Heq; invert_result Heq; simpl; intuition congruence.
    + destruct (0 <? _); intros Heq; invert_result Heq; simpl; intuition congruence.
  - intros Heq; invert_result Heq. simpl. intuition congruence.
Qed.

Lemma open_if_nil_stream (r : hardReader) (w : W) (h : Handle)
  (r1 : hardReader) (w1 : W) :
  open_if_nil r w = inl (h, r1, w1) -> r1 = set_rc r (Some h).
Proof.
  unfold open_if_nil. destruct (rc r) as [h'|] eqn:Hrc.
  - intros Heq; invert_result Heq. now rewrite <- Hrc, set_rc_same.
  - destruct (o r) as [obj|]; [|discriminate].
    destruct (fs_Object_Open _ _ _) as [[h'|e] w']; [|discriminate].
    now intros Heq; invert_result Heq.
Qed.

Lemma open_if_nil_stop (r : hardReader) (w : W) (t : turn)
  (r1 : hardReader) (w1 : W) :
  open_if_nil r w = inr (t, r1, w1) ->
  rc r = None /\
  (t = Panic /\ o r = None /\ r1 = r /\ w1 = w
   \/ t = Continue /\ r1 = r /\
      exists obj e,
        o r = Some obj /\
        fs_Object_Open w obj
          (appendSeekOption (options r) (offset r) (limit r))
        = (inr e, w1)).
Proof.
  unfold open_if_nil. destruct (rc r) as [h'|] eqn:Hrc; [discriminate|].
  intros Hstop. split; [reflexivity|]. revert Hstop.
  destruct (o r) as [obj|] eqn:Ho.
  - simpl app.
    destruct (fs_Object_Open _ _ _) as [[h'|e] w'] eqn:Hop; [discriminate|].
    intros Heq; invert_result Heq. right. rewrite <- Hrc, set_rc_same. eauto 6.
  - intros Heq; invert_result Heq. left. auto.
Qed.

Lemma Read_turn_effect (p : nat) (r : hardReader) (w : W)
  (t : turn) (r1 : hardReader) (w1 : W) :
  Read_turn p r w = (t, r1, w1) -> turn_effect r t r1.
Proof.
  unfold Read_turn.
  destruct (open_if_nil r w) as [[[h r0] w0]|[[t' r'] w']] eqn:Hop.
  - intros Hrd. apply open_if_nil_stream in Hop. subst r0.
    apply read_stream_effect in Hrd as (Hnp & Heff).
    unfold turn_effect in *. simpl in Heff.
    destruct t; [assumption | assumption | contradiction].
  - intros Heq; invert_result Heq.
    apply open_if_nil_stop in Hop as (Hrc & [(-> & _ & -> & _) | (-> & -> & _)]);
      unfold turn_effect; auto 10.
Qed.

(** ** The loop *)

Lemma Read_loop_S (fuel p : nat) (r : hardReader) (w : W) :
  Read_loop (S fuel) p r w
  = match Read_turn p r w with
    | (Continue, r1, w1) => Read_loop fuel p r1 w1
    | (Return n data err, r1, w1) => Some (Returned n data err, r1, w1)
    | (Panic, r1, w1) => Some (Panicked, r1, w1)
    end.
Proof. reflexivity. Qed.

Lemma retries_effect (p : nat) (r : hardReader) (w : W)
  (r' : hardReader) (w' : W) :
  retries p r w r' w' ->
  o r' = o r /\ options r' = options r /\ limit r' = limit r /\
  closed r' = closed r /\ offset r' = offset r /\
  eofReached r' = eofReached r /\
  (r' = r /\ w' = w \/ rc r' = None).
Proof.
  induction 1 as [r w | r w r1 w1 r2 w2 Hturn _ IH].
  - auto 10.
  - apply Read_turn_effect in Hturn.
    destruct Hturn as (Ho & Hopts & Hlim & Hcl & Hrc & Hoff & Heof).
    destruct IH as (? & ? & ? & ? & ? & ? & Hlast).
    repeat (split; [congruence|]).
    destruct Hlast as [(-> & _) | ?]; auto.
Qed.

(** The loop comes back with what the first turn that does not [continue]
    ends with. *)
Lemma retries_then_return (p : nat) (r : hardReader) (w : W)
  (r0 : hardReader) (w0 : W) (n : Z) (data : list byte)
  (err : option error) (r' : hardReader) (w' : W) :
  retries p r w r0 w0 ->
  Read_turn p r0 w0 = (Return n data err, r', w') ->
  exists fuel0, forall fuel, (fuel0 <= fuel)%nat ->
    Read_loop fuel p r w = Some (Returned n data err, r', w').
Proof.
  intros Hretries Hlast.
  induction Hretries as [r w | r w r1 w1 r2 w2 Hturn _ IH].
  - exists 1%nat. intros [|fuel] Hle; [lia|].
    now rewrite Read_loop_S, Hlast.
  - destruct (IH Hlast) as (fuel0 & Hfuel0). exists (S fuel0).
    intros [|fuel] Hle; [lia|].
    rewrite Read_loop_S, Hturn. apply Hfuel0. lia.
Qed.

Lemma Read_loop_last_turn (fuel p : nat) (r : hardReader) (w : W)
  (out : outcome) (r' : hardReader) (w' : W) :
  Read_loop fuel p r w = Some (out, r', w') ->
  exists r0 w0 t,
    retries p r w r0 w0 /\ Read_turn p r0 w0 = (t, r', w') /\
    match out with
    | Returned n data err => t = Return n data err
    | Panicked => t = Panic
    end.
Proof.
  revert r w. induction fuel as [|fuel IH]; intros r w; [discriminate|].
  rewrite Read_loop_S.
  destruct (Read_turn p r w) as [[[ | n data err | ] r1] w1] eqn:Hturn.
  - intros Hrun. destruct (IH _ _ Hrun) as (r0 & w0 & t & Hre & Hlast & Hout).
    exists r0, w0, t. split; [|auto]. econstructor; eassumption.
  - intros Heq; invert_result Heq.
    exists r, w, (Return n data err). split; [constructor | auto].
  - intros Heq; invert_result Heq.
    exists r, w, Panic. split; [constructor | auto].
Qed.

Lemma Read_loop_effect (fuel p : nat) (r : hardReader) (w : W)
  (out : outcome) (r' : hardReader) (w' : W) :
  Read_loop fuel p r w = Some (out, r', w') -> call_effect r out r'.
Proof.
  intros Hrun.
  apply Read_loop_last_turn in Hrun as (r0 & w0 & t & Hre & Hlast & Hout).
  apply retries_effect in Hre as (Ho & Hopts & Hlim & Hcl & Hoff & Heof & _).
  apply Read_turn_effect in Hlast as (Ho' & Hopts' & Hlim' & Hcl' & Ht).
  unfold call_effect. repeat (split; [congruence|]).
  destruct out as [n data err|]; subst t.
  - destruct Ht as (Hn & [(-> & Hoff' & Heof') | (-> & Hoff' & Heof')]);
      (split; [assumption|]).
    + left. repeat split; congruence.
    + right; left. repeat split; congruence.
  - subst r'. auto.
Qed.

Lemma Read_effect (fuel p : nat) (r : hardReader) (w : W)
  (out : outcome) (r' : hardReader) (w' : W) :
  hardReader_Read fuel p r w = Some (out, r', w') -> call_effect r out r'.
Proof.
  unfold hardReader_Read.
  destruct (closed r) eqn:Hcl.
  { intros Heq; invert_result Heq. unfold call_effect. auto 12. }
  destruct (eofReached r) eqn:Heof.
  { intros Heq; invert_result Heq. unfold call_effect. auto 12. }
  destruct (negb (limit r =? -1) && (limit r <=? offset r)).
  { intros Heq; invert_result Heq. unfold call_effect. simpl. auto 12. }
  apply Read_loop_effect.
Qed.

(** A call that starts at the end of the stream, or with the limit
    reached, or on a closed reader, leaves the world alone and takes no
    turn of the loop. *)
Lemma Read_without_remote (fuel p : nat) (r : hardReader) (w : W) :
  closed r = true \/ eofReached r = true \/
  (limit r <> -1 /\ limit r <= offset r) ->
  exists err r',
    hardReader_Read fuel p r w = Some (Returned 0 [] (Some err), r', w) /\
    err = (if closed r then ErrorFileClosed else EOF).
Proof.
  intros Hfast.
  destruct (closed r) eqn:Hcl; [eauto using Read_closed|].
  destruct (eofReached r) eqn:Heof; [eauto using Read_at_eof|].
  destruct Hfast as [? | [? | (Hne & Hle)]]; [discriminate.. |].
  eauto using Read_limit_reached.
Qed.

Lemma retries_same_reader (p : nat) (r : hardReader) (w : W)
  (r' : hardReader) (w' : W) :
  retries p r w r' w' -> set_rc r' None = set_rc r None.
Proof.
  intros Hre.
  apply retries_effect in Hre as (Ho & Hopts & Hlim & Hcl & Hoff & Heof & _).
  destruct r, r'; simpl in *. now subst.
Qed.

Lemma Read_turn_read (p : nat) (r : hardReader) (w : W) (h : Handle)
  (r1 : hardReader) (w1 : W) :
  open_if_nil r w = inl (h, r1, w1) ->
  Read_turn p r w = read_stream p (set_rc r (Some h)) h w1.
Proof.
  intros Hop. unfold Read_turn. rewrite Hop.
  now rewrite (open_if_nil_stream _ _ _ _ _ Hop).
Qed.

Lemma open_if_nil_failed (r : hardReader) (w w1 : W) (obj : Obj)
  (e : error) :
  rc r = None -> o r = Some obj ->
  fs_Object_Open w obj (appendSeekOption (options r) (offset r) (limit r))
  = (inr e, w1) ->
  open_if_nil r w = inr (Continue, r, w1).
Proof.
  intros Hrc Ho Hop. unfold open_if_nil. rewrite Hrc, Ho. simpl app.
  rewrite Hop. now rewrite <- Hrc, set_rc_same.
Qed.

(** ** Read errors *)

(** C4. In a [Read] call, once the stream has put at least one byte in the
    buffer and reports an error other than [EOF], the reader drops the
    stream ([rc] is nil), adds the number of bytes to the offset and
    returns that number with a nil error. Every other field keeps its
    value. The turn in which this happens may come after retries of the
    same call. *)
Theorem Read_error_after_bytes (p : nat) (r : hardReader) (w : W)
  (r0 : hardReader) (w0 : W) (h : Handle) (r1 : hardReader) (w1 : W)
  (data : list byte) (e : error) (w2 : W) :
  enters_loop r ->
  retries p r w r0 w0 ->
  open_if_nil r0 w0 = inl (h, r1, w1) ->
  ReadCloser_Read w1 h p = ((data, Some e), w2) ->
  is_EOF e = false ->
  data <> [] ->
  let n := Z.of_nat (length data) in
  let r' := set_offset (set_rc r None) (add64 (offset r) n) in
  rc r' = None /\
  offset r' = add64 (offset r) n /\
  (int64 (offset r) -> offset r + n <= max_int64 ->
   offset r' = offset r + n) /\
  exists fuel0, forall fuel, (fuel0 <= fuel)%nat ->
    hardReader_Read fuel p r w = Some (Returned n data None, r', w2).
Proof.
  intros Henter Hre Hop Hrd He Hdata n r'.
  split; [reflexivity|]. split; [reflexivity|]. split.
  { intros Hoff Hmax. apply add64_no_overflow; [assumption | lia | assumption]. }
  assert (Hlast : Read_turn p r0 w0 = (Return n data None, r', w2)).
  { rewrite (Read_turn_read _ _ _ _ _ _ Hop).
    rewrite (read_stream_err_bytes _ _ _ _ _ _ _ Hrd He Hdata).
    subst r' n. simpl offset.
    change (set_rc (set_rc r0 (Some h)) None) with (set_rc r0 None).
    rewrite (retries_same_reader _ _ _ _ _ Hre).
    apply retries_effect in Hre as (_ & _ & _ & _ & -> & _). reflexivity. }
  destruct (retries_then_return _ _ _ _ _ _ _ _ _ _ Hre Hlast)
    as (fuel0 & Hfuel0).
  exists fuel0. intros fuel Hle.
  rewrite (Read_enters_loop _ _ _ _ Henter). auto.
Qed.

(** C9. Right after an [Open] that failed, and right after a read error
    other than [EOF], with or without bytes, the reader holds no stream:
    the turn ends with [rc] nil. *)
Theorem rc_nil_after_failure (p : nat) (r : hardReader) (w : W) :
  (forall (obj : Obj) (e : error) (w1 : W),
      rc r = None -> o r = Some obj ->
      fs_Object_Open w obj
        (appendSeekOption (options r) (offset r) (limit r)) = (inr e, w1) ->
      exists r1, Read_turn p r w = (Continue, r1, w1) /\ rc r1 = None) /\
  (forall (h : Handle) (r1 : hardReader) (w1 : W) (data : list byte)
          (e : error) (w2 : W),
      open_if_nil r w = inl (h, r1, w1) ->
      ReadCloser_Read w1 h p = ((data, Some e), w2) ->
      is_EOF e = false ->
      exists t r2,
        Read_turn p r w = (t, r2, w2) /\ rc r2 = None /\
        (data = [] /\ t = Continue
         \/ data <> [] /\ t = Return (Z.of_nat (length data)) data None)).
Proof.
  split.
  - intros obj e w1 Hrc Ho Hop. exists r. split; [|assumption].
    unfold Read_turn. now rewrite (open_if_nil_failed _ _ _ _ _ Hrc Ho Hop).
  - intros h r1 w1 data e w2 Hop Hrd He.
    rewrite (Read_turn_read _ _ _ _ _ _ Hop).
    destruct data as [|b data].
    + rewrite (read_stream_err_zero _ _ _ _ _ _ Hrd He).
      do 2 eexists. split; [reflexivity|]. split; [reflexivity|].
      left. split; reflexivity.
    + rewrite (read_stream_err_bytes _ _ _ _ _ _ _ Hrd He ltac:(discriminate)).
      do 2 eexists. split; [reflexivity|]. split; [reflexivity|].
      right. split; [discriminate | reflexivity].
Qed.

(** ** Transient errors *)

Lemma open_if_nil_opened (r : hardReader) (w w1 : W) (obj : Obj)
  (h : Handle) :
  rc r = None -> o r = Some obj ->
  fs_Object_Open w obj (appendSeekOption (options r) (offset r) (limit r))
  = (inl h, w1) ->
  open_if_nil r w = inl (h, set_rc r (Some h), w1).
Proof.
  intros Hrc Ho Hop. unfold open_if_nil. rewrite Hrc, Ho. simpl app.
  now rewrite Hop.
Qed.

Lemma open_if_nil_held (r : hardReader) (w : W) (h : Handle) :
  rc r = Some h -> open_if_nil r w = inl (h, r, w).
Proof. intros Hrc. unfold open_if_nil. now rewrite Hrc. Qed.

(** The failures of the remote are turns of the loop that end in
    [continue]; they leave the reader as it was but for the stream. *)
Lemma failures_are_retries (p : nat) (obj : Obj) (opts : list OpenOption)
  (c0 : option Handle) (w : W) (c : option Handle) (w0 : W) :
  failures p obj opts c0 w c w0 ->
  forall r : hardReader,
    rc r = c0 -> o r = Some obj ->
    appendSeekOption (options r) (offset r) (limit r) = opts ->
    retries p r w (set_rc r c) w0.
Proof.
  induction 1 as [c w | w e w1 c' w' Hop _ IH | h w e w2 c' w' Hrd He _ IH
                 | w h w1 e w2 c' w' Hop Hrd He _ IH];
    intros r Hrc Ho Hopts.
  - rewrite <- Hrc, set_rc_same. apply retries_refl.
  - rewrite <- Hopts in Hop.
    apply (retries_step p r w r w1); [|now apply IH].
    unfold Read_turn. now rewrite (open_if_nil_failed _ _ _ _ _ Hrc Ho Hop).
  - apply (retries_step p r w (set_rc r None) w2).
    + rewrite (Read_turn_read _ _ _ _ _ _ (open_if_nil_held _ w _ Hrc)).
      rewrite <- Hrc, set_rc_same.
      apply (read_stream_err_zero _ _ _ _ _ _ Hrd He).
    + apply (IH (set_rc r None)); auto.
  - rewrite <- Hopts in Hop.
    apply (retries_step p r w (set_rc r None) w2).
    + rewrite (Read_turn_read _ _ _ _ _ _
                 (open_if_nil_opened _ _ _ _ _ Hrc Ho Hop)).
      apply (read_stream_err_zero _ (set_rc r (Some h)) _ _ _ _ Hrd He).
    + apply (IH (set_rc r None)); auto.
Qed.

(** C5. No error of the remote comes out of [Read]. Told by what the remote
    answers: a turn in which [Open] fails ends in [continue] with the reader
    as it was, without a stream, in the world after that [Open]; a turn in
    which the read returns no bytes and an error other than [EOF] ends in
    [continue] with the stream dropped, in the world after that read. After
    any number of such failures, each [Open] of which the reader makes with
    [appendSeekOption] of its options, offset and limit, the first read that
    gives bytes, a nil error or [EOF] is what the call returns, with nil or
    [EOF] as its error. Through the turns that [continue] the options, the
    offset and the limit do not change, and a call that returns gives nil,
    [EOF] or [ErrorFileClosed] as its error. *)
Theorem transient_errors_absorbed (p : nat) (r : hardReader) (w : W) :
  (forall (obj : Obj) (e : error) (w1 : W),
      rc r = None -> o r = Some obj ->
      fs_Object_Open w obj
        (appendSeekOption (options r) (offset r) (limit r)) = (inr e, w1) ->
      Read_turn p r w = (Continue, r, w1) /\
      forall fuel, Read_loop (S fuel) p r w = Read_loop fuel p r w1) /\
  (forall (h : Handle) (e : error) (w2 : W),
      rc r = Some h ->
      ReadCloser_Read w h p = (([], Some e), w2) ->
      is_EOF e = false ->
      Read_turn p r w = (Continue, set_rc r None, w2) /\
      forall fuel,
        Read_loop (S fuel) p r w = Read_loop fuel p (set_rc r None) w2) /\
  (forall (obj : Obj) (h : Handle) (w1 : W) (e : error) (w2 : W),
      rc r = None -> o r = Some obj ->
      fs_Object_Open w obj
        (appendSeekOption (options r) (offset r) (limit r)) = (inl h, w1) ->
      ReadCloser_Read w1 h p = (([], Some e), w2) ->
      is_EOF e = false ->
      Read_turn p r w = (Continue, set_rc r None, w2) /\
      forall fuel,
        Read_loop (S fuel) p r w = Read_loop fuel p (set_rc r None) w2) /\
  (forall (obj : Obj) (c : option Handle) (w0 : W) (data : list byte)
          (err : option error) (w' : W),
      enters_loop r -> o r = Some obj ->
      failures p obj (appendSeekOption (options r) (offset r) (limit r))
        (rc r) w c w0 ->
      answered p obj (appendSeekOption (options r) (offset r) (limit r))
        c w0 data err w' ->
      err = None \/ err = Some EOF \/ data <> [] ->
      retries p r w (set_rc r c) w0 /\
      exists fuel0, forall fuel, (fuel0 <= fuel)%nat ->
        exists r',
          hardReader_Read fuel p r w
          = Some (Returned (Z.of_nat (length data)) data (surfaced err),
                  r', w')) /\
  (forall (r0 : hardReader) (w0 : W),
      retries p r w r0 w0 ->
      options r0 = options r /\ offset r0 = offset r /\
      limit r0 = limit r /\ (r0 = r /\ w0 = w \/ rc r0 = None)) /\
  (forall (fuel : nat) (n : Z) (data : list byte) (err : option error)
          (r' : hardReader) (w' : W),
      hardReader_Read fuel p r w = Some (Returned n data err, r', w') ->
      visible err).
Proof.
  split; [|split; [|split; [|split; [|split]]]].
  - intros obj e w1 Hrc Ho Hop.
    assert (Read_turn p r w = (Continue, r, w1)) as Hturn.
    { unfold Read_turn.
      now rewrite (open_if_nil_failed _ _ _ _ _ Hrc Ho Hop). }
    split; [exact Hturn|]. intros fuel. now rewrite Read_loop_S, Hturn.
  - intros h e w2 Hrc Hrd He.
    assert (Read_turn p r w = (Continue, set_rc r None, w2)) as Hturn.
    { rewrite (Read_turn_read _ _ _ _ _ _ (open_if_nil_held _ w _ Hrc)).
      rewrite <- Hrc, set_rc_same.
      apply (read_stream_err_zero _ _ _ _ _ _ Hrd He). }
    split; [exact Hturn|]. intros fuel. now rewrite Read_loop_S, Hturn.
  - intros obj h w1 e w2 Hrc Ho Hop Hrd He.
    assert (Read_turn p r w = (Continue, set_rc r None, w2)) as Hturn.
    { rewrite (Read_turn_read _ _ _ _ _ _
                 (open_if_nil_opened _ _ _ _ _ Hrc Ho Hop)).
      apply (read_stream_err_zero _ (set_rc r (Some h)) _ _ _ _ Hrd He). }
    split; [exact Hturn|]. intros fuel. now rewrite Read_loop_S, Hturn.
  - intros obj c w0 data err w' Henter Ho Hfail Hans Hkind.
    pose proof (failures_are_retries _ _ _ _ _ _ _ Hfail r eq_refl Ho eq_refl)
      as Hre.
    split; [exact Hre|].
    assert (exists h w1,
               open_if_nil (set_rc r c) w0
               = inl (h, set_rc (set_rc r c) (Some h), w1) /\
               ReadCloser_Read w1 h p = ((data, err), w'))
      as (h & w1 & Hop & Hrd).
    { destruct c as [h|]; simpl in Hans.
      - exists h, w0. split; [|exact Hans]. reflexivity.
      - destruct Hans as (h & w1 & Hop & Hrd). exists h, w1.
        split; [|exact Hrd].
        apply (open_if_nil_opened (set_rc r None) w0 w1 obj h);
          [reflexivity | exact Ho | exact Hop]. }
    assert (exists r',
               Read_turn p (set_rc r c) w0
               = (Return (Z.of_nat (length data)) data (surfaced err),
                  r', w')) as (r' & Hlast).
    { rewrite (Read_turn_read _ _ _ _ _ _ Hop).
      destruct err as [e|].
      - destruct (is_EOF e) eqn:He.
        + destruct e; try discriminate.
          rewrite (read_stream_eof _ _ _ _ _ _ Hrd). eauto.
        + assert (data <> []) as Hdata.
          { destruct Hkind as [? | [Heof | ?]];
              [discriminate | | assumption].
            invert_result Heof. discriminate. }
          rewrite (read_stream_err_bytes _ _ _ _ _ _ _ Hrd He Hdata).
          destruct e; try discriminate; simpl; eauto.
      - rewrite (read_stream_ok _ _ _ _ _ _ Hrd). simpl. eauto. }
    destruct (retries_then_return _ _ _ _ _ _ _ _ _ _ Hre Hlast)
      as (fuel0 & Hfuel0).
    exists fuel0. intros fuel Hle. exists r'.
    rewrite (Read_enters_loop _ _ _ _ Henter). auto.
  - intros r0 w0 Hre. apply retries_effect in Hre. tauto.
  - intros fuel n data err r' w' Hrun.
    apply Read_effect in Hrun as (_ & _ & _ & _ & _ & Herr).
    unfold visible. tauto.
Qed.

(** ** Close *)

(** C6. [Close] on a closed reader fails with [ErrorFileClosed] and changes
    nothing. Otherwise a stream that is held is closed and the error of
    that call is the result; without a stream the result is nil. In both
    cases the object and the stream are set to nil and [closed] to true,
    whatever the stream answered, so a second [Close] fails. *)
Theorem Close_cases (r : hardReader) (w : W) :
  (closed r = true ->
   hardReader_Close r w = (Some ErrorFileClosed, r, w)) /\
  (closed r = false ->
   forall h : Handle, rc r = Some h ->
     hardReader_Close r w
     = (fst (ReadCloser_Close w h), cleared r, snd (ReadCloser_Close w h))) /\
  (closed r = false -> rc r = None ->
   hardReader_Close r w = (None, cleared r, w)) /\
  (closed r = false ->
   forall (err : option error) (r' : hardReader) (w' : W),
     hardReader_Close r w = (err, r', w') ->
     o r' = None /\ rc r' = None /\ closed r' = true /\
     hardReader_Close r' w' = (Some ErrorFileClosed, r', w')).
Proof.
  unfold hardReader_Close, cleared. split; [|split; [|split]].
  - intros ->. reflexivity.
  - intros -> h ->. now destruct (ReadCloser_Close w h).
  - intros -> ->. reflexivity.
  - intros -> err r' w'.
    destruct (match rc r with
              | Some h => ReadCloser_Close w h
              | None => (None, w)
              end) as [err0 w0].
    intros Heq; invert_result Heq. simpl. auto.
Qed.

(** ** Open *)

Section Open.
Context `{RangeDecoder}.

Lemma Open_option_passthrough (w : W) (obj : Obj)
  (post acc : list OpenOption) (off lim : Z) :
  forallb is_passthrough post = true ->
  fold_left (Open_option w obj) post (acc, off, lim)
  = (acc ++ post, off, lim).
Proof.
  revert acc. induction post as [|x post IH]; intros acc Hpost.
  - simpl. now rewrite app_nil_r.
  - simpl in Hpost. apply andb_prop in Hpost as (Hx & Hpost).
    destruct x; try discriminate. simpl.
    rewrite IH by assumption. now rewrite <- app_assoc.
Qed.

Lemma Open_option_collects (w : W) (obj : Obj)
  (options acc : list OpenOption) (off lim : Z) :
  fst (fst (fold_left (Open_option w obj) options (acc, off, lim)))
  = acc ++ List.filter is_passthrough options.
Proof.
  revert acc off lim.
  induction options as [|x options IH]; intros acc off lim.
  - simpl. now rewrite app_nil_r.
  - destruct x as [x | s e | hd]; simpl.
    + apply IH.
    + destruct (Decode s e (fs_Object_Size w obj)). apply IH.
    + rewrite IH. now rewrite <- app_assoc.
Qed.

Lemma Object_Open_reader (obj : Obj) (opts : list OpenOption) (w : W) :
  Object_Open obj opts w
  = (mkReader (Some obj) None
       (fst (fst (fold_left (Open_option w obj) opts ([], 0, -1))))
       (snd (fst (fold_left (Open_option w obj) opts ([], 0, -1))))
       (snd (fold_left (Open_option w obj) opts ([], 0, -1)))
       false false,
     None, w).
Proof.
  unfold Object_Open.
  now destruct (fold_left (Open_option w obj) opts ([], 0, -1))
    as [[acc off] lim].
Qed.

(** C7. [Object.Open] returns, with a nil error and the world as it
    was, a reader on the wrapped object that holds no stream and is
    neither at the end nor closed. Its options are the caller's options
    that are neither a seek nor a range, in their order. Without a seek
    or a range the offset is 0 and the limit -1. If the last of them is
    a seek, the offset is its offset and the limit the one of the
    options before it; if it is a range, offset and limit are what
    [Decode] gives for it at the size of the object. *)
Theorem Object_Open_spec (obj : Obj) (opts : list OpenOption) (w : W) :
  exists r,
    Object_Open obj opts w = (r, None, w) /\
    o r = Some obj /\ rc r = None /\
    eofReached r = false /\ closed r = false /\
    options r = List.filter is_passthrough opts /\
    (forallb is_passthrough opts = true ->
     offset r = 0 /\ limit r = -1 /\ options r = opts) /\
    (forall pre x post,
        opts = pre ++ SeekOption x :: post ->
        forallb is_passthrough post = true ->
        offset r = x /\
        limit r = limit (fst (fst (Object_Open obj pre w))) /\
        (forallb is_passthrough pre = true -> limit r = -1)) /\
    (forall pre s e post,
        opts = pre ++ RangeOption s e :: post ->
        forallb is_passthrough post = true ->
        (offset r, limit r) = Decode s e (fs_Object_Size w obj)).
Proof.
  eexists. split; [apply Object_Open_reader|]. simpl.
  do 4 (split; [reflexivity|]).
  split; [apply (Open_option_collects w obj opts [] 0 (-1))|].
  split; [|split].
  - intros Hall. now rewrite Open_option_passthrough.
  - intros pre x post -> Hpost.
    rewrite fold_left_app, Object_Open_reader.
    destruct (fold_left (Open_option w obj) pre ([], 0, -1))
      as [[acc off] lim] eqn:Hpre.
    simpl. rewrite Open_option_passthrough by assumption. simpl.
    split; [reflexivity|]. split; [reflexivity|].
    intros Hall. rewrite Open_option_passthrough in Hpre by assumption.
    congruence.
  - intros pre s e post -> Hpost. rewrite fold_left_app.
    destruct (fold_left (Open_option w obj) pre ([], 0, -1))
      as [[acc off] lim].
    simpl.
    destruct (Decode s e (fs_Object_Size w obj)) as [off' lim'].
    now rewrite Open_option_passthrough.
Qed.

End Open.

(** ** Sequences of calls *)

Lemma Read_calls_cons (fuel p : nat) (ps : list nat) (r : hardReader)
  (w : W) (outs : list outcome) (r' : hardReader) (w' : W) :
  Read_calls fuel (p :: ps) r w = Some (outs, r', w') ->
  exists out r1 w1 outs',
    hardReader_Read fuel p r w = Some (out, r1, w1) /\
    Read_calls fuel ps r1 w1 = Some (outs', r', w') /\
    outs = out :: outs'.
Proof.
  simpl.
  destruct (hardReader_Read fuel p r w) as [[[out r1] w1]|] eqn:Hcall;
    [|discriminate].
  destruct (Read_calls fuel ps r1 w1) as [[[outs' r2] w2]|] eqn:Hrest;
    [|discriminate].
  intros Heq; invert_result Heq.
  exists out, r1, w1, outs'. auto.
Qed.

Lemma Read_calls_more_fuel (fuel fuel' : nat) (ps : list nat)
  (r : hardReader) (w : W) (res : list outcome * hardReader * W) :
  Read_calls fuel ps r w = Some res -> (fuel <= fuel')%nat ->
  Read_calls fuel' ps r w = Some res.
Proof.
  revert r w res. induction ps as [|p ps IH]; intros r w res Hrun Hle.
  - assumption.
  - destruct res as [[outs r'] w'].
    apply Read_calls_cons in Hrun
      as (out & r1 & w1 & outs' & Hcall & Hrest & ->).
    simpl. rewrite (Read_more_fuel _ _ _ _ _ _ Hcall Hle).
    now rewrite (IH _ _ _ Hrest Hle).
Qed.

Lemma delivered_nonneg (fuel p : nat) (r : hardReader) (w : W)
  (out : outcome) (r' : hardReader) (w' : W) :
  hardReader_Read fuel p r w = Some (out, r', w') -> 0 <= delivered out.
Proof.
  intros Hcall. apply Read_effect in Hcall as (_ & _ & _ & _ & Hout).
  destruct out as [n data err|]; simpl; [|lia].
  destruct Hout as (-> & _). lia.
Qed.

Lemma total_delivered_nonneg (fuel : nat) (ps : list nat) (r : hardReader)
  (w : W) (outs : list outcome) (r' : hardReader) (w' : W) :
  Read_calls fuel ps r w = Some (outs, r', w') -> 0 <= total_delivered outs.
Proof.
  revert r w outs. induction ps as [|p ps IH]; intros r w outs Hrun.
  - invert_result Hrun. simpl. lia.
  - apply Read_calls_cons in Hrun
      as (out & r1 & w1 & outs' & Hcall & Hrest & ->).
    simpl. apply delivered_nonneg in Hcall. apply IH in Hrest. lia.
Qed.

(** One call moves the offset forward by what it delivered at most, as
    long as the sum stays an [int64]. *)
Lemma Read_offset_step (fuel p : nat) (r : hardReader) (w : W)
  (out : outcome) (r' : hardReader) (w' : W) :
  hardReader_Read fuel p r w = Some (out, r', w') ->
  int64 (offset r) -> offset r + delivered out <= max_int64 ->
  offset r <= offset r' <= offset r + delivered out.
Proof.
  intros Hcall Hoff Hmax. pose proof (delivered_nonneg _ _ _ _ _ _ _ Hcall).
  apply Read_effect in Hcall as (_ & _ & _ & _ & Hout).
  destruct out as [n data err|]; simpl in *.
  - destruct Hout as (_ & [(_ & -> & _) | [(_ & -> & _) | (_ & -> & _)]]);
      [|lia..].
    rewrite add64_no_overflow by assumption. lia.
  - destruct Hout as (-> & _). lia.
Qed.

Lemma Read_calls_effect (fuel : nat) (ps : list nat) (r : hardReader)
  (w : W) (outs : list outcome) (r' : hardReader) (w' : W) :
  Read_calls fuel ps r w = Some (outs, r', w') ->
  closed r' = closed r /\ limit r' = limit r /\
  (eofReached r = true -> eofReached r' = true) /\
  (int64 (offset r) -> offset r + total_delivered outs <= max_int64 ->
   offset r <= offset r' <= offset r + total_delivered outs).
Proof.
  revert r w outs. induction ps as [|p ps IH]; intros r w outs Hrun.
  - invert_result Hrun. simpl. repeat split; auto; lia.
  - apply Read_calls_cons in Hrun
      as (out & r1 & w1 & outs' & Hcall & Hrest & ->).
    pose proof (total_delivered_nonneg _ _ _ _ _ _ _ Hrest) as Hpos.
    pose proof (Read_offset_step _ _ _ _ _ _ _ Hcall) as Hstep.
    pose proof (delivered_nonneg _ _ _ _ _ _ _ Hcall) as Hout.
    apply Read_effect in Hcall as (_ & _ & Hlim & Hcl & Heff).
    apply IH in Hrest as (Hcl' & Hlim' & Heof' & Hoff').
    split; [congruence|]. split; [congruence|]. split.
    + intros Heof. apply Heof'.
      destruct out as [n data err|].
      * destruct Heff as (_ & [(_ & _ & ->) | [(_ & _ & ->) | (_ & -> & _)]]);
          auto.
      * destruct Heff as (_ & ->). assumption.
    + simpl. intros Hoff Hmax.
      assert (offset r <= offset r1 <= offset r + delivered out)
        as Hfirst by (apply Hstep; [assumption | lia]).
      assert (offset r1 <= offset r' <= offset r1 + total_delivered outs')
        as Hrest.
      { apply Hoff'; [|lia]. unfold int64 in *. lia. }
      lia.
Qed.

Lemma Read_calls_at_eof (fuel : nat) (ps : list nat) (r : hardReader)
  (w : W) :
  closed r = false -> eofReached r = true ->
  Read_calls fuel ps r w
  = Some (repeat (Returned 0 [] (Some EOF)) (length ps), r, w).
Proof.
  intros Hcl Heof. induction ps as [|p ps IH]; [reflexivity|].
  simpl. rewrite (Read_at_eof _ _ _ _ Hcl Heof). now rewrite IH.
Qed.

(** C8, as amended. Through any sequence of [Read] calls on a reader that
    is not closed, the reader stays not closed and the offset does not go
    down as long as the offset and the bytes delivered add up to an [int64];
    and [eofReached], once true, stays true: every later call returns
    [(0, EOF)] and leaves the reader and the world as they are. *)
Theorem offset_monotone_eof_sticky (fuel : nat) (ps : list nat)
  (r : hardReader) (w : W) :
  closed r = false ->
  (forall (outs : list outcome) (r' : hardReader) (w' : W),
      Read_calls fuel ps r w = Some (outs, r', w') ->
      closed r' = false /\
      (eofReached r = true -> eofReached r' = true) /\
      (int64 (offset r) ->
       offset r + total_delivered outs <= max_int64 ->
       offset r <= offset r')) /\
  (eofReached r = true ->
   Read_calls fuel ps r w
   = Some (repeat (Returned 0 [] (Some EOF)) (length ps), r, w)).
Proof.
  intros Hcl. split.
  - intros outs r' w' Hrun.
    apply Read_calls_effect in Hrun as (Hcl' & _ & Heof & Hoff).
    split; [congruence|]. split; [assumption|].
    intros Hrange Hmax. apply Hoff; assumption.
  - apply Read_calls_at_eof. assumption.
Qed.

(** ** The limit *)

(** C10, as amended. With a limit that the offset has reached, a [Read]
    call takes no turn of the loop and leaves the world as it is; on a
    reader that is not closed it sets [eofReached] and returns [(0, EOF)],
    and on a closed reader it returns [(0, ErrorFileClosed)]. So a call that
    delivers a byte started on a reader that was not closed, with the
    offset below the limit. This holds for a reader that started at
    offset 0 as well, where [appendSeekOption] sends no range. *)
Theorem limit_enforced_per_call (fuel p : nat) (r : hardReader) (w : W) :
  limit r <> -1 ->
  (limit r <= offset r -> closed r = false ->
   hardReader_Read fuel p r w
   = Some (Returned 0 [] (Some EOF), set_eofReached r true, w)) /\
  (limit r <= offset r -> closed r = true ->
   hardReader_Read fuel p r w
   = Some (Returned 0 [] (Some ErrorFileClosed), r, w)) /\
  (forall (n : Z) (data : list byte) (err : option error)
          (r' : hardReader) (w' : W),
      hardReader_Read fuel p r w = Some (Returned n data err, r', w') ->
      0 < n \/ data <> [] ->
      closed r = false /\ offset r < limit r) /\
  appendSeekOption (options r) 0 (limit r) = options r.
Proof.
  intros Hlim. split; [|split; [|split]].
  - intros Hle Hcl. now apply Read_limit_reached.
  - intros _ Hcl. now apply Read_closed.
  - intros n data err r' w' Hrun Hbytes.
    destruct (closed r) eqn:Hcl.
    { rewrite (Read_closed _ _ _ _ Hcl) in Hrun. invert_result Hrun.
      destruct Hbytes; [lia | contradiction]. }
    split; [reflexivity|].
    destruct (Z.lt_ge_cases (offset r) (limit r)) as [|Hle]; [assumption|].
    rewrite (Read_limit_reached _ _ _ _ Hcl Hlim Hle) in Hrun.
    invert_result Hrun. destruct Hbytes; [lia | contradiction].
  - apply appendSeekOption_not_positive. lia.
Qed.

End ReaderFacts.

(** * The scripted remote at work *)

(** C3. In the scenario of the ten byte object, read from offset 3 with
    limit 8, three successive [Read] calls return ["345"], then ["67"], then
    [(0, EOF)], and the offset is 8 at the end. The remote has seen a failed
    [Open] for the range 3 to 8, a second one, two reads on the first
    stream, an [Open] for the range 6 to 8 and one read on the second
    stream. Two turns of the loop are enough for each call. *)
Theorem scenario_run (k : nat) :
  exists (r' : hardReader) (w' : scripted),
    Read_calls (2 + k) [16; 16; 16]%nat scenario_reader scenario_world
    = Some ([ Returned 3 (bytes "345") None;
              Returned 2 (bytes "67") None;
              Returned 0 [] (Some EOF) ], r', w') /\
    offset r' = 8 /\ eofReached r' = true /\
    calls w'
    = [ CallOpen the_file [RangeOption 3 8];
        CallOpen the_file [RangeOption 3 8];
        CallRead 0%nat 16%nat; CallRead 0%nat 16%nat;
        CallOpen the_file [RangeOption 6 8];
        CallRead 1%nat 16%nat ].
Proof.
  do 2 eexists. split.
  - apply (Read_calls_more_fuel 2); [vm_compute; reflexivity | lia].
  - repeat split.
Qed.

(** When the second stream gives the end of the data together with ["67"],
    the second call returns ["67"] with [EOF] and the offset stays at 6:
    [Read] does not add to the offset on [EOF]. *)
Remark scenario_run_eof_with_data :
  exists (r' : hardReader) (w' : scripted),
    Read_calls 2 [16; 16; 16]%nat scenario_reader scenario_world_eof_with_data
    = Some ([ Returned 3 (bytes "345") None;
              Returned 2 (bytes "67") (Some EOF);
              Returned 0 [] (Some EOF) ], r', w') /\
    offset r' = 6.
Proof. do 2 eexists. split; [vm_compute; reflexivity | reflexivity]. Qed.

(** A remote that never opens keeps the loop turning: no amount of fuel
    brings the call back. *)
Remark Read_loop_dead_remote (fuel p : nat) (log : list call) :
  Read_loop fuel p scenario_reader (mkScripted 10 [] [] log) = None.
Proof.
  revert log. induction fuel as [|fuel IH]; intros log; [reflexivity|].
  rewrite Read_loop_S. unfold Read_turn. simpl. apply IH.
Qed.

(** [k] failed [Open] calls in a row are absorbed in [k] turns, each of them
    made with the same options. *)
Remark open_failures_absorbed (k fuel p : nat) (r : hardReader) (obj : Obj)
  (e : error) (sz : Z) (rest : list (error + stream_script))
  (ss : list stream_script) (log : list call) :
  rc r = None -> o r = Some obj ->
  Read_loop (k + fuel) p r
    (mkScripted sz (repeat (inl e) k ++ rest) ss log)
  = Read_loop fuel p r
      (mkScripted sz rest ss
         (log ++ repeat
                   (CallOpen obj
                      (appendSeekOption (options r) (offset r) (limit r)))
                   k)).
Proof.
  intros Hrc Ho. revert log. induction k as [|k IH]; intros log.
  - simpl. now rewrite app_nil_r.
  - change (S k + fuel)%nat with (S (k + fuel)).
    rewrite Read_loop_S. unfold Read_turn.
    erewrite open_if_nil_failed; [|assumption|eassumption|reflexivity].
    rewrite IH. simpl repeat. now rewrite <- app_assoc.
Qed.

(** * Instances of the statements above *)

Lemma Read_fast_paths_witness :
  hardReader_Read 0 16 (cleared scenario_reader) scenario_world
  = Some (Returned 0 [] (Some ErrorFileClosed), cleared scenario_reader,
          scenario_world) /\
  hardReader_Read 0 16 (set_eofReached scenario_reader true) scenario_world
  = Some (Returned 0 [] (Some EOF), set_eofReached scenario_reader true,
          scenario_world) /\
  hardReader_Read 0 16 (set_offset scenario_reader 8) scenario_world
  = Some (Returned 0 [] (Some EOF),
          set_eofReached (set_offset scenario_reader 8) true, scenario_world).
Proof.
  destruct (Read_fast_paths 0 16 (cleared scenario_reader) scenario_world)
    as (Hclosed & _ & _).
  destruct (Read_fast_paths 0 16 (set_eofReached scenario_reader true)
              scenario_world) as (_ & Heof & _).
  destruct (Read_fast_paths 0 16 (set_offset scenario_reader 8)
              scenario_world) as (_ & _ & Hlimit).
  split; [|split].
  - apply Hclosed. reflexivity.
  - apply Heof; reflexivity.
  - apply Hlimit; [reflexivity | simpl; lia | simpl; lia].
Defined.

Lemma Read_error_after_bytes_witness :
  exists (w' : scripted) (fuel0 : nat), forall fuel, (fuel0 <= fuel)%nat ->
    hardReader_Read fuel 16 scenario_reader broken_world
    = Some (Returned 2 (bytes "34") None,
            mkReader (Some the_file) None [] 5 8 false false, w').
Proof.
  edestruct (@Read_error_after_bytes scripted _ 16 scenario_reader broken_world)
    as (_ & _ & _ & fuel0 & Hfuel0).
  - unfold enters_loop. simpl. split; [reflexivity|].
    split; [reflexivity|]. right. lia.
  - eapply retries_step; [reflexivity | apply retries_refl].
  - reflexivity.
  - reflexivity.
  - reflexivity.
  - discriminate.
  - eexists. exists fuel0. exact Hfuel0.
Defined.

Lemma rc_nil_after_failure_witness :
  (exists (r1 : hardReader) (w1 : scripted),
      Read_turn 16 scenario_reader scenario_world = (Continue, r1, w1) /\
      rc r1 = None) /\
  (exists (r2 : hardReader) (w2 : scripted),
      Read_turn 16 open_reader scenario_world
      = (Continue, r2, w2) /\ rc r2 = None).
Proof.
  split.
  - destruct (rc_nil_after_failure 16 scenario_reader scenario_world)
      as (Hopen & _).
    edestruct (Hopen the_file) as (r1 & Hturn & Hrc);
      [reflexivity | reflexivity | reflexivity |].
    exists r1. eexists. split; [exact Hturn | exact Hrc].
  - destruct (rc_nil_after_failure 16 open_reader scenario_world)
      as (_ & Hread).
    edestruct Hread as (t & r2 & Hturn & Hrc & [(_ & ->) | (Hdata & _)]);
      [reflexivity | reflexivity | reflexivity | |].
    + exists r2. eexists. split; [exact Hturn | exact Hrc].
    + exfalso. apply Hdata. reflexivity.
Defined.

Lemma transient_errors_absorbed_witness :
  (exists w1 : scripted,
      Read_turn 16 scenario_reader scenario_world
      = (Continue, scenario_reader, w1) /\
      calls w1 = [CallOpen the_file [RangeOption 3 8]]) /\
  (exists (w' : scripted) (fuel0 : nat),
      forall fuel, (fuel0 <= fuel)%nat ->
        exists r',
          hardReader_Read fuel 16 scenario_reader scenario_world
          = Some (Returned 3 (bytes "345") None, r', w')) /\
  visible None.
Proof.
  destruct (transient_errors_absorbed 16 scenario_reader scenario_world)
    as (Hopen & _ & _ & Hanswer & _ & Hvisible).
  split; [|split].
  - eexists. split.
    + apply (Hopen the_file (ErrOther "connection refused"));
        reflexivity.
    + reflexivity.
  - edestruct (Hanswer the_file None) as (_ & fuel0 & Hcall).
    + unfold enters_loop. simpl. split; [reflexivity|].
      split; [reflexivity|]. right. lia.
    + reflexivity.
    + eapply failures_open; [reflexivity | apply failures_none].
    + simpl. do 2 eexists. split; reflexivity.
    + left. reflexivity.
    + eexists. exists fuel0. exact Hcall.
  - eapply (Hvisible 2%nat 3 (bytes "345")). reflexivity.
Defined.

Lemma Close_cases_witness :
  exists w' : scripted,
    hardReader_Close open_reader closing_world
    = (Some (ErrOther "close failed"), cleared open_reader, w') /\
    calls w' = [CallClose 0%nat] /\
    hardReader_Close (cleared open_reader) w'
    = (Some ErrorFileClosed, cleared open_reader, w').
Proof.
  destruct (Close_cases open_reader closing_world) as (_ & Hlive & _ & Hafter).
  destruct (Close_cases (cleared open_reader)
              (snd (ReadCloser_Close closing_world 0%nat))) as (Hclosed & _).
  eexists. split; [|split].
  - apply (Hlive eq_refl 0%nat eq_refl).
  - reflexivity.
  - apply Hclosed. reflexivity.
Defined.

Lemma Object_Open_spec_witness :
  exists r : hardReader,
    @Object_Open scripted _ sample_decoder the_file
      [OtherOption "a"; RangeOption 3 8; OtherOption "b"] scenario_world
    = (r, None, scenario_world) /\
    (offset r, limit r) = (3, 8) /\
    options r = [OtherOption "a"; OtherOption "b"].
Proof.
  destruct (@Object_Open_spec scripted _ sample_decoder the_file
              [OtherOption "a"; RangeOption 3 8; OtherOption "b"]
              scenario_world)
    as (r & Hopen & _ & _ & _ & _ & Hopts & _ & _ & Hrange).
  exists r. split; [exact Hopen|]. split.
  - apply (Hrange [OtherOption "a"] 3 8 [OtherOption "b"]); reflexivity.
  - exact Hopts.
Defined.

Lemma offset_monotone_eof_sticky_witness :
  exists r' : hardReader,
    offset scenario_reader <= offset r' /\ offset r' = 8.
Proof.
  destruct (offset_monotone_eof_sticky 2 [16; 16; 16]%nat scenario_reader
              scenario_world eq_refl) as (Hrun & _).
  edestruct Hrun as (_ & _ & Hmono); [reflexivity|].
  eexists. split.
  - apply Hmono; [unfold int64, min_int64, max_int64; simpl; lia|].
    unfold max_int64. simpl. lia.
  - reflexivity.
Defined.

(** C8, as it was stated: the offset can go down. [r.offset += int64(n)]
    wraps around: the reader at the last [int64] offset reads one byte and
    its offset is the first [int64] after that. *)
Lemma offset_wraps_at_last_offset :
  closed last_offset_reader = false /\
  exists (r' : hardReader) (w' : scripted),
    Read_calls 1 [1%nat] last_offset_reader one_byte_world
    = Some ([Returned 1 (bytes "x") None], r', w') /\
    offset last_offset_reader = 9223372036854775807 /\
    offset r' = -9223372036854775808 /\
    ~ offset last_offset_reader <= offset r'.
Proof.
  split; [reflexivity|]. do 2 eexists.
  split; [vm_compute; reflexivity|].
  split; [reflexivity|]. split; [reflexivity|].
  simpl. unfold max_int64. lia.
Qed.

(** That reader is the one [Object.Open] returns for a seek to the last
    [int64] offset. *)
Remark last_offset_reader_opened :
  @Object_Open scripted _ sample_decoder the_file [SeekOption max_int64]
    one_byte_world
  = (last_offset_reader, None, one_byte_world).
Proof. reflexivity. Qed.

Lemma limit_enforced_per_call_witness :
  hardReader_Read 0 16 (set_offset edge_reader 3) edge_world
  = Some (Returned 0 [] (Some EOF),
          set_eofReached (set_offset edge_reader 3) true, edge_world).
Proof.
  destruct (limit_enforced_per_call 0 16 (set_offset edge_reader 3)
              edge_world ltac:(simpl; lia)) as (Hopen & _).
  apply Hopen; [simpl; lia | reflexivity].
Defined.

(** C10, as it was stated: a [Read] call that starts with the limit reached
    does not always return [(0, EOF)]. On the closed reader with offset 3
    and limit 3 it returns [(0, ErrorFileClosed)]. *)
Lemma limit_reached_on_closed_reader :
  limit edge_reader_closed <> -1 /\
  limit edge_reader_closed <= offset edge_reader_closed /\
  hardReader_Read 1 3 edge_reader_closed edge_world
  = Some (Returned 0 [] (Some ErrorFileClosed), edge_reader_closed,
          edge_world) /\
  ~ (exists (r' : hardReader) (w' : scripted),
        hardReader_Read 1 3 edge_reader_closed edge_world
        = Some (Returned 0 [] (Some EOF), r', w')).
Proof.
  split; [discriminate|]. split; [simpl; lia|]. split; [reflexivity|].
  intros (r' & w' & Hrun). discriminate Hrun.
Qed.

(** Within one call the limit is not looked at: the same reader with a
    buffer of six bytes gets six bytes from a stream that has them, three of
    them past the limit. *)
Remark limit_passed_within_a_call :
  exists (r1 : hardReader) (w1 : scripted),
    hardReader_Read 1 6 edge_reader
      (mkScripted 10 [ inr (mkStream [ (bytes "012345", None) ] None) ] [] [])
    = Some (Returned 6 (bytes "012345") None, r1, w1) /\
    offset r1 = 6 /\ limit r1 = 3.
Proof. do 2 eexists. split; [reflexivity|]. split; reflexivity. Qed.

(** That reader is what reading three bytes from offset 0 with limit 3 and
    closing gives; the remote was opened without a range. *)
Remark edge_reader_closed_reached :
  exists (r1 : hardReader) (w1 : scripted),
    hardReader_Read 1 3 edge_reader edge_world
    = Some (Returned 3 (bytes "012") None, r1, w1) /\
    calls w1 = [CallOpen the_file []; CallRead 0%nat 3%nat] /\
    hardReader_Close r1 w1 = (None, edge_reader_closed, calls_closed w1).
Proof.
  do 2 eexists. split; [reflexivity|]. split; reflexivity.
Qed.

(** * More on the reader *)

Section ReaderMore.
Context {W : Type} `{Remote W}.

Lemma Close_effect (r : hardReader) (w : W) (err : option error)
  (r' : hardReader) (w' : W) :
  hardReader_Close r w = (err, r', w') ->
  options r' = options r /\ limit r' = limit r /\ offset r' = offset r /\
  eofReached r' = eofReached r /\ closed r' = true /\
  (closed r = true -> err = Some ErrorFileClosed /\ r' = r /\ w' = w) /\
  (closed r = false -> o r' = None /\ rc r' = None).
Proof.
  unfold hardReader_Close. destruct (closed r) eqn:Hcl.
  - intros Heq; invert_result Heq. rewrite Hcl.
    repeat split; auto; discriminate.
  - destruct (match rc r with
              | Some h => ReadCloser_Close w h
              | None => (None, w)
              end) as [err0 w0].
    intros Heq; invert_result Heq. simpl. repeat split; auto; discriminate.
Qed.

Lemma run_ops_read (fuel p : nat) (ops : list op) (r : hardReader) (w : W)
  (res : list op_result) (r' : hardReader) (w' : W) :
  run_ops fuel (OpRead p :: ops) r w = Some (res, r', w') ->
  exists out r1 w1 res',
    hardReader_Read fuel p r w = Some (out, r1, w1) /\
    run_ops fuel ops r1 w1 = Some (res', r', w') /\
    res = ReadResult out :: res'.
Proof.
  simpl.
  destruct (hardReader_Read fuel p r w) as [[[out r1] w1]|] eqn:Hcall;
    [|discriminate].
  destruct (run_ops fuel ops r1 w1) as [[[res' r2] w2]|] eqn:Hrest;
    [|discriminate].
  intros Heq; invert_result Heq. exists out, r1, w1, res'. auto.
Qed.

Lemma run_ops_close (fuel : nat) (ops : list op) (r : hardReader) (w : W)
  (res : list op_result) (r' : hardReader) (w' : W) :
  run_ops fuel (OpClose :: ops) r w = Some (res, r', w') ->
  exists err r1 w1 res',
    hardReader_Close r w = (err, r1, w1) /\
    run_ops fuel ops r1 w1 = Some (res', r', w') /\
    res = CloseResult err :: res'.
Proof.
  simpl. destruct (hardReader_Close r w) as [[err r1] w1] eqn:Hclose.
  destruct (run_ops fuel ops r1 w1) as [[[res' r2] w2]|] eqn:Hrest;
    [|discriminate].
  intros Heq; invert_result Heq. exists err, r1, w1, res'. auto.
Qed.

(** X1. Over any sequence of [Read] calls the offset moves by exactly the
    bytes that were returned with a nil error; bytes returned together with
    [EOF] and calls that return an error do not move it. The sums are
    taken to stay within [int64]. *)
Theorem offset_accounts_for_bytes (fuel : nat) (ps : list nat)
  (r : hardReader) (w : W) (outs : list outcome) (r' : hardReader) (w' : W) :
  Read_calls fuel ps r w = Some (outs, r', w') ->
  int64 (offset r) ->
  offset r + total_advanced outs <= max_int64 ->
  offset r' = offset r + total_advanced outs.
Proof.
  revert r w outs. induction ps as [|p ps IH]; intros r w outs Hrun Hoff Hmax.
  - invert_result Hrun. simpl. lia.
  - apply Read_calls_cons in Hrun
      as (out & r1 & w1 & outs' & Hcall & Hrest & ->).
    assert (0 <= total_advanced outs') as Hpos.
    { clear - Hrest. revert r1 w1 outs' Hrest.
      induction ps as [|q ps IHps]; intros r1 w1 outs' Hrest.
      - invert_result Hrest. simpl. lia.
      - apply Read_calls_cons in Hrest
          as (out & r2 & w2 & outs'' & Hcall & Hrest & ->).
        apply IHps in Hrest. apply delivered_nonneg in Hcall.
        simpl. destruct out as [n data [e|]|]; simpl in *; lia. }
    pose proof (delivered_nonneg _ _ _ _ _ _ _ Hcall) as Hn.
    apply Read_effect in Hcall as (_ & _ & _ & _ & Heff).
    simpl in Hmax |- *.
    assert (offset r1 = offset r + advanced out /\ int64 (offset r1))
      as (Hstep & Hrange).
    { destruct out as [n data err|]; simpl in *.
      - destruct Heff as (_ & [(-> & Hadd & _) | [(-> & -> & _) | (-> & -> & _)]]);
          simpl in *; [|split; [lia | assumption]..].
        rewrite Hadd, add64_no_overflow by (assumption || lia).
        split; [reflexivity|]. unfold int64 in *. lia.
      - destruct Heff as (-> & _). split; [lia | assumption]. }
    rewrite (IH _ _ _ Hrest Hrange) by lia. lia.
Qed.

(** X2. [Close] is final. After a [Close], whatever it returned, every
    [Read] and every [Close] in any order returns [ErrorFileClosed]; the
    reader and the world stay as the [Close] left them, so the remote is not
    called again. *)
Theorem closed_is_final (fuel : nat) (ops : list op) (r : hardReader) (w : W)
  (err : option error) (r1 : hardReader) (w1 : W) :
  hardReader_Close r w = (err, r1, w1) ->
  run_ops fuel ops r1 w1 = Some (map refused ops, r1, w1).
Proof.
  intros Hclose. apply Close_effect in Hclose as (_ & _ & _ & _ & Hcl & _).
  induction ops as [|x ops IH]; [reflexivity|].
  destruct x as [p|]; simpl.
  - rewrite (Read_closed _ _ _ _ Hcl). now rewrite IH.
  - unfold hardReader_Close. rewrite Hcl. now rewrite IH.
Qed.

(** X4. Through any order of [Read] and [Close] calls the limit and the
    options are the ones the reader was made with, and [closed] and
    [eofReached] never go back to false. *)
Theorem reader_fields_kept (fuel : nat) (ops : list op) (r : hardReader)
  (w : W) (res : list op_result) (r' : hardReader) (w' : W) :
  run_ops fuel ops r w = Some (res, r', w') ->
  limit r' = limit r /\ options r' = options r /\
  (closed r = true -> closed r' = true) /\
  (eofReached r = true -> eofReached r' = true).
Proof.
  revert r w res. induction ops as [|x ops IH]; intros r w res Hrun.
  - invert_result Hrun. auto.
  - destruct x as [p|].
    + apply run_ops_read in Hrun
        as (out & r1 & w1 & res' & Hcall & Hrest & ->).
      apply IH in Hrest as (Hlim & Hopts & Hcl & Heof).
      apply Read_effect in Hcall as (_ & Hopts1 & Hlim1 & Hcl1 & Heff).
      split; [congruence|]. split; [congruence|]. split.
      * intros Hc. apply Hcl. congruence.
      * intros He. apply Heof.
        destruct out as [n data e|].
        -- destruct Heff as (_ & [(_ & _ & ->) | [(_ & _ & ->) | (_ & -> & _)]]);
             auto.
        -- destruct Heff as (_ & ->). assumption.
    + apply run_ops_close in Hrun
        as (err & r1 & w1 & res' & Hclose & Hrest & ->).
      apply IH in Hrest as (Hlim & Hopts & Hcl & Heof).
      apply Close_effect in Hclose
        as (Hopts1 & Hlim1 & _ & Heof1 & Hcl1 & _ & _).
      split; [congruence|]. split; [congruence|]. split.
      * intros _. apply Hcl. assumption.
      * intros He. apply Heof. congruence.
Qed.

(** A reader that is closed or has its object. *)
Lemma Read_no_panic (fuel p : nat) (r : hardReader) (w : W)
  (out : outcome) (r' : hardReader) (w' : W) :
  (closed r = false -> o r <> None) ->
  hardReader_Read fuel p r w = Some (out, r', w') ->
  out <> Panicked /\ (closed r' = false -> o r' <> None).
Proof.
  intros Hwf Hcall. split.
  - intros ->. revert Hcall. unfold hardReader_Read.
    destruct (closed r) eqn:Hcl; [discriminate|].
    destruct (eofReached r); [discriminate|].
    destruct (negb (limit r =? -1) && (limit r <=? offset r)); [discriminate|].
    intros Hloop.
    apply Read_loop_last_turn in Hloop as (r0 & w0 & t & Hre & Hlast & ->).
    apply retries_effect in Hre as (Ho & _).
    unfold Read_turn in Hlast.
    destruct (open_if_nil r0 w0) as [[[h r2] w2]|[[t' r2] w2]] eqn:Hop.
    + apply read_stream_effect in Hlast as (Hnp & _). now apply Hnp.
    + invert_result Hlast.
      apply open_if_nil_stop in Hop as (_ & [(_ & Hnil & _) | (Hc & _)]);
        [|discriminate].
      apply Hwf; [reflexivity | congruence].
  - apply Read_effect in Hcall as (Ho & _ & _ & Hcl & _).
    rewrite Ho, Hcl. assumption.
Qed.

Section OpenThenUse.
Context `{RangeDecoder}.

(** X3. [Close] sets [r.o] to nil, and still no [Read] calls [Open] on a
    nil [r.o]: for a reader that [Object.Open] made around an object that is
    not nil, in any order of [Read] and [Close] calls, no [Read] panics at
    [r.o.Open]. The remote is one whose [Open] returns a stream or an error,
    as every remote here; an [Open] that returns neither is not covered. *)
Theorem opened_reader_never_panics (obj : Obj) (opts : list OpenOption)
  (w0 w : W) (fuel : nat) (ops : list op)
  (res : list op_result) (r' : hardReader) (w' : W) :
  run_ops fuel ops (fst (fst (Object_Open obj opts w0))) w
  = Some (res, r', w') ->
  ~ In (ReadResult Panicked) res.
Proof.
  rewrite Object_Open_reader. simpl fst.
  set (r := mkReader _ _ _ _ _ _ _).
  assert (closed r = false -> o r <> None) as Hwf by (intros _; discriminate).
  clearbody r. revert r w res Hwf.
  induction ops as [|x ops IH]; intros r w res Hwf Hrun.
  - invert_result Hrun. intros [].
  - destruct x as [p|].
    + apply run_ops_read in Hrun
        as (out & r1 & w1 & res' & Hcall & Hrest & ->).
      destruct (Read_no_panic _ _ _ _ _ _ _ Hwf Hcall) as (Hout & Hwf1).
      intros [Heq | Hin].
      * apply Hout. congruence.
      * exact (IH _ _ _ Hwf1 Hrest Hin).
    + apply run_ops_close in Hrun
        as (err & r1 & w1 & res' & Hclose & Hrest & ->).
      apply Close_effect in Hclose as (_ & _ & _ & _ & Hcl & _).
      intros [Heq | Hin]; [discriminate|].
      refine (IH _ _ _ _ Hrest Hin). congruence.
Qed.

End OpenThenUse.

End ReaderMore.

(** X5. [Read] never closes a stream, also not the one it drops after an
    error: with any other [Close] in the remote's streams a [Read] call gives
    the same outcome, reader and world. *)
Theorem Read_never_closes {W : Type} (R : Remote W)
  (close : W -> Handle -> option error * W)
  (fuel p : nat) (r : hardReader) (w : W) :
  @hardReader_Read W (with_Close R close) fuel p r w
  = @hardReader_Read W R fuel p r w.
Proof.
  unfold hardReader_Read.
  destruct (closed r); [reflexivity|]. destruct (eofReached r); [reflexivity|].
  destruct (negb (limit r =? -1) && (limit r <=? offset r)); [reflexivity|].
  revert r w. induction fuel as [|fuel IH]; intros r w; [reflexivity|].
  simpl. change (@Read_turn W (with_Close R close) p r w)
    with (@Read_turn W R p r w).
  destruct (@Read_turn W R p r w) as [[[ | n data err | ] r1] w1];
    [apply IH | reflexivity | reflexivity].
Qed.

Section OpenThenDerive.
Context {W : Type} `{Remote W} `{RangeDecoder}.

Lemma Object_Open_one_directive (obj : Obj) (pre post : list OpenOption)
  (d : OpenOption) (w : W) :
  forallb is_passthrough pre = true ->
  forallb is_passthrough post = true ->
  is_directive d = true ->
  fold_left (Open_option w obj) (pre ++ d :: post) ([], 0, -1)
  = (pre ++ post,
     snd (fst (Open_option w obj ([], 0, -1) d)),
     snd (Open_option w obj ([], 0, -1) d)).
Proof.
  intros Hpre Hpost Hd. rewrite fold_left_app.
  rewrite Open_option_passthrough by assumption. simpl.
  destruct d as [x | s e | hd]; try discriminate; simpl.
  - now rewrite Open_option_passthrough.
  - destruct (Decode s e (fs_Object_Size w obj)) as [off lim].
    now rewrite Open_option_passthrough.
Qed.

(** X6. A seek among the caller's options comes out of [Object.Open] and
    [appendSeekOption] at the end of the options for the remote: first the
    other options in their order, then the seek. A seek to 0 or below is
    not sent at all. *)
Theorem seek_reaches_remote_last (obj : Obj) (pre post : list OpenOption)
  (x : Z) (w : W) :
  forallb is_passthrough pre = true ->
  forallb is_passthrough post = true ->
  let r := fst (fst (Object_Open obj (pre ++ SeekOption x :: post) w)) in
  appendSeekOption (options r) (offset r) (limit r)
  = if 0 <? x then pre ++ post ++ [SeekOption x] else pre ++ post.
Proof.
  intros Hpre Hpost r. subst r. rewrite Object_Open_reader.
  rewrite Object_Open_one_directive by auto. simpl.
  unfold appendSeekOption. simpl.
  destruct (0 <? x); [now rewrite <- app_assoc | reflexivity].
Qed.

(** X7. A range among the caller's options is decoded by [Object.Open] and
    written again by [appendSeekOption] from the decoded offset and limit:
    the remote gets the other options and then a range from that offset to
    that limit, or a seek to that offset when the decoded limit is -1; when
    the decoded offset is 0 or below the remote gets no range and no seek,
    whatever the limit. *)
Theorem range_reaches_remote_decoded (obj : Obj) (pre post : list OpenOption)
  (s e : Z) (w : W) :
  forallb is_passthrough pre = true ->
  forallb is_passthrough post = true ->
  let r := fst (fst (Object_Open obj (pre ++ RangeOption s e :: post) w)) in
  let off := fst (Decode s e (fs_Object_Size w obj)) in
  let lim := snd (Decode s e (fs_Object_Size w obj)) in
  appendSeekOption (options r) (offset r) (limit r)
  = if 0 <? off then
      pre ++ post
      ++ [if lim =? -1 then SeekOption off else RangeOption off lim]
    else pre ++ post.
Proof.
  intros Hpre Hpost r off lim. subst r off lim. rewrite Object_Open_reader.
  rewrite Object_Open_one_directive by auto. simpl.
  destruct (Decode s e (fs_Object_Size w obj)) as [off lim]. simpl.
  unfold appendSeekOption.
  destruct (lim =? -1); destruct (0 <? off);
    try reflexivity; now rewrite <- app_assoc.
Qed.

End OpenThenDerive.

Lemma offset_accounts_for_bytes_witness :
  exists r' : hardReader,
    offset r' = 3 + total_advanced
                      [ Returned 3 (bytes "345") None;
                        Returned 2 (bytes "67") (Some EOF);
                        Returned 0 [] (Some EOF) ] /\
    offset r' = 6.
Proof.
  eexists. split.
  - eapply (offset_accounts_for_bytes 2 [16; 16; 16]%nat scenario_reader
              scenario_world_eof_with_data).
    + reflexivity.
    + unfold int64, min_int64, max_int64. simpl. lia.
    + unfold max_int64. simpl. lia.
  - reflexivity.
Defined.

Lemma closed_is_final_witness :
  exists w1 : scripted,
    run_ops 0 [OpRead 16; OpClose; OpRead 16] (cleared open_reader) w1
    = Some ([ ReadResult (Returned 0 [] (Some ErrorFileClosed));
              CloseResult (Some ErrorFileClosed);
              ReadResult (Returned 0 [] (Some ErrorFileClosed)) ],
            cleared open_reader, w1) /\
    calls w1 = [CallClose 0%nat].
Proof.
  eexists. split.
  - apply (closed_is_final 0 [OpRead 16; OpClose; OpRead 16] open_reader
             closing_world (Some (ErrOther "close failed"))).
    reflexivity.
  - reflexivity.
Defined.

Lemma reader_fields_kept_witness :
  exists r' : hardReader,
    limit r' = 8 /\ options r' = [] /\ closed r' = true.
Proof.
  edestruct (reader_fields_kept 2 [OpRead 16; OpClose; OpRead 16]
               scenario_reader scenario_world) as (Hlim & Hopts & _ & _).
  - reflexivity.
  - eexists. split; [exact Hlim|]. split; [exact Hopts | reflexivity].
Defined.

Lemma opened_reader_never_panics_witness :
  ~ In (ReadResult Panicked)
      [ ReadResult (Returned 3 (bytes "345") None);
        CloseResult None;
        ReadResult (Returned 0 [] (Some ErrorFileClosed)) ].
Proof.
  eapply (@opened_reader_never_panics scripted _ sample_decoder the_file
            [RangeOption 3 8] scenario_world scenario_world 2
            [OpRead 16; OpClose; OpRead 16]).
  reflexivity.
Defined.

Lemma seek_reaches_remote_last_witness :
  appendSeekOption
    (options (fst (fst (@Object_Open scripted _ sample_decoder the_file
                          [OtherOption "a"; SeekOption 5; OtherOption "b"]
                          scenario_world))))
    5 (-1)
  = [OtherOption "a"; OtherOption "b"; SeekOption 5].
Proof.
  apply (@seek_reaches_remote_last scripted _ sample_decoder the_file
           [OtherOption "a"] [OtherOption "b"] 5 scenario_world);
    reflexivity.
Defined.

Lemma range_reaches_remote_decoded_witness :
  appendSeekOption
    (options (fst (fst (@Object_Open scripted _ sample_decoder the_file
                          [OtherOption "a"; RangeOption 0 8; OtherOption "b"]
                          scenario_world))))
    0 8
  = [OtherOption "a"; OtherOption "b"].
Proof.
  apply (@range_reaches_remote_decoded scripted _ sample_decoder the_file
           [OtherOption "a"] [OtherOption "b"] 0 8 scenario_world);
    reflexivity.
Defined.

(** * The wrapping Fs *)

Section WrappingFsFacts.
Context {W : Type} `{Wrapped W}.

Lemma wrap_entries_fold (f : Fs) (ret acc : list DirEntry) :
  fold_left
    (fun entries x =>
       match x with
       | EntryObject obj => entries ++ [EntryObject (Object obj f)]
       | _ => entries ++ [x]
       end)
    ret acc
  = acc ++ map (wrap_entry f) ret.
Proof.
  revert acc. induction ret as [|x ret IH]; intros acc.
  - simpl. now rewrite app_nil_r.
  - simpl. rewrite IH. destruct x; simpl; now rewrite <- app_assoc.
Qed.

Lemma unwrap_wrap_entry (f : Fs) (x : DirEntry) :
  unwrap_entry (wrap_entry f x) = x.
Proof. now destruct x. Qed.

(** X8. [Fs.List] gives the listing of the wrapped remote entry by entry,
    in the same order: each object inside an [Object] of this [Fs], each
    directory as it is, so that unwrapping the objects gives the listing of
    the wrapped remote back. When the wrapped remote reports an error, its
    entries are dropped and only the error is returned. *)
Theorem List_wraps_listing (f : Fs) (dir : string) (w w1 : W)
  (ret : list DirEntry) (err : option fs_error) :
  Fs_List w dir = ((ret, err), w1) ->
  match err with
  | None =>
      exists entries,
        Fs_hard_List f dir w = (entries, None, w1) /\
        entries = map (wrap_entry f) ret /\
        length entries = length ret /\
        map unwrap_entry entries = ret
  | Some e => Fs_hard_List f dir w = ([], Some e, w1)
  end.
Proof.
  intros Hlist. unfold Fs_hard_List. rewrite Hlist.
  destruct err as [e|]; [reflexivity|].
  eexists. split; [reflexivity|]. rewrite wrap_entries_fold. simpl.
  split; [reflexivity|]. split; [apply length_map|].
  rewrite map_map. rewrite <- (map_id ret) at 2.
  apply map_ext. apply unwrap_wrap_entry.
Qed.

(** [Fs.Copy] and [Fs.Move] accept an [Object] of this backend only
    and pass the object inside it to the wrapped remote, whose answer they
    return as it is, not wrapped. Any other source is refused with
    [ErrorCantCopy] or [ErrorCantMove] before the remote is called, and so is
    every source when the remote has no such feature. *)
Lemma Copy_Move_unwrap (f : Fs) (src : fs_Object) (remote : string) (w : W) :
  (forall do, Features_Copy = Some do ->
     Fs_hard_Copy f (Object src f) remote w
     = (fst (fst (do w (Some src) remote)), snd (fst (do w (Some src) remote)),
        snd (do w (Some src) remote))) /\
  (forall do, Features_Move = Some do ->
     Fs_hard_Move f (Object src f) remote w
     = (fst (fst (do w (Some src) remote)), snd (fst (do w (Some src) remote)),
        snd (do w (Some src) remote))) /\
  (forall id,
     Fs_hard_Copy f (Foreign id) remote w = (None, Some ErrorCantCopy, w) /\
     Fs_hard_Move f (Foreign id) remote w = (None, Some ErrorCantMove, w)) /\
  (Features_Copy = None ->
   Fs_hard_Copy f src remote w = (None, Some ErrorCantCopy, w)) /\
  (Features_Move = None ->
   Fs_hard_Move f src remote w = (None, Some ErrorCantMove, w)).
Proof.
  unfold Fs_hard_Copy, Fs_hard_Move. split; [|split; [|split; [|split]]].
  - intros do ->. now destruct (do w (Some src) remote) as [[dst err] w1].
  - intros do ->. now destruct (do w (Some src) remote) as [[dst err] w1].
  - intros id. split.
    + now destruct Features_Copy.
    + now destruct Features_Move.
  - intros ->. reflexivity.
  - intros ->. reflexivity.
Qed.

Lemma Copy_passes_wrapped (f : Fs) (y : fs_Object) (obj : option fs_Object)
  (remote : string) (w : W)
  (do : W -> option fs_Object -> string
        -> (option fs_Object * option fs_error) * W) :
  Features_Copy = Some do ->
  (y = match obj with Some x => Object x f | None => ObjectOfNil f end) ->
  Fs_hard_Copy f y remote w
  = (fst (fst (do w obj remote)), snd (fst (do w obj remote)),
     snd (do w obj remote)).
Proof.
  intros Hdo ->. unfold Fs_hard_Copy. rewrite Hdo.
  destruct obj as [x|]; now destruct (do w _ remote) as [[dst err] w1].
Qed.

(** X9. The objects that [Fs.List] and [Fs.NewObject] return are accepted by
    [Fs.Copy], which hands the wrapped remote the very value it had listed
    or found. [Fs.NewObject] wraps whatever the remote returned with a nil
    error, a nil object too, and returns nothing but the error otherwise.
    The object [Fs.Copy] returns is the remote's own; if that is not an
    [Object] of this backend, a second [Fs.Copy] of it is refused. *)
Theorem Copy_of_listed_object (f : Fs) (dir remote : string) (w w1 : W)
  (ret : list DirEntry) (x : fs_Object)
  (do : W -> option fs_Object -> string
        -> (option fs_Object * option fs_error) * W) :
  Features_Copy = Some do ->
  Fs_List w dir = ((ret, None), w1) ->
  In (EntryObject x) ret ->
  In (EntryObject (Object x f)) (fst (fst (Fs_hard_List f dir w))) /\
  (forall w2,
     Fs_hard_Copy f (Object x f) remote w2
     = (fst (fst (do w2 (Some x) remote)), snd (fst (do w2 (Some x) remote)),
        snd (do w2 (Some x) remote)) /\
     forall id w3,
       do w2 (Some x) remote = ((Some (Foreign id), None), w3) ->
       Fs_hard_Copy f (Foreign id) remote w3
       = (None, Some ErrorCantCopy, w3)) /\
  (forall found obj w4 w5,
     Fs_NewObject w4 found = ((obj, None), w5) ->
     exists y,
       Fs_hard_NewObject f found w4 = (Some y, None, w5) /\
       y = Object_or_nil obj f /\
       UnWrap y = obj /\
       forall w6,
         Fs_hard_Copy f y remote w6
         = (fst (fst (do w6 obj remote)), snd (fst (do w6 obj remote)),
            snd (do w6 obj remote))) /\
  (forall found obj e w4 w5,
     Fs_NewObject w4 found = ((obj, Some e), w5) ->
     Fs_hard_NewObject f found w4 = (None, Some e, w5)).
Proof.
  intros Hdo Hlist Hin. split; [|split; [|split]].
  - unfold Fs_hard_List. rewrite Hlist. simpl. rewrite wrap_entries_fold.
    simpl. apply (in_map (wrap_entry f)) in Hin. exact Hin.
  - intros w2. split.
    + apply (Copy_passes_wrapped f _ (Some x) remote w2 do Hdo eq_refl).
    + intros id w3 _. unfold Fs_hard_Copy. now rewrite Hdo.
  - intros found obj w4 w5 Hnew. unfold Fs_hard_NewObject. rewrite Hnew.
    eexists. split; [reflexivity|]. split; [reflexivity|]. split.
    + now destruct obj.
    + intros w6.
      apply (Copy_passes_wrapped f _ obj remote w6 do Hdo eq_refl).
  - intros found obj e w4 w5 Hnew. unfold Fs_hard_NewObject.
    now rewrite Hnew.
Qed.

End WrappingFsFacts.

Lemma List_wraps_listing_witness :
  Fs_hard_List (mkFs "hard" "") "" tt
  = ([ EntryObject (Object (Foreign "a.txt"%string) (mkFs "hard" ""));
       EntryDirectory "sub" ], None, tt).
Proof.
  assert (Fs_List tt ""
          = (([EntryObject (Foreign "a.txt"%string); EntryDirectory "sub"],
              None), tt)) as Hunder by reflexivity.
  destruct (List_wraps_listing (mkFs "hard" "") "" tt tt _ None Hunder)
    as (entries & Hlist & -> & _).
  exact Hlist.
Defined.

Lemma Copy_Move_unwrap_witness :
  Fs_hard_Copy (mkFs "hard" "")
    (Object (Foreign "a.txt"%string) (mkFs "hard" "")) "b.txt" tt
  = (Some (Foreign "a.txt"%string), None, tt) /\
  Fs_hard_Move (mkFs "hard" "")
    (Object (Foreign "a.txt"%string) (mkFs "hard" "")) "b.txt" tt
  = (None, Some ErrorCantMove, tt).
Proof.
  destruct (Copy_Move_unwrap (mkFs "hard" "") (Foreign "a.txt"%string)
              "b.txt" tt) as (Hcopy & _ & _ & _ & _).
  destruct (Copy_Move_unwrap (mkFs "hard" "")
              (Object (Foreign "a.txt"%string) (mkFs "hard" ""))
              "b.txt" tt) as (_ & _ & _ & _ & Hmove).
  split.
  - apply (Hcopy (fun _ src _ => ((src, None), tt))). reflexivity.
  - apply Hmove. reflexivity.
Defined.

Lemma Copy_of_listed_object_witness :
  In (EntryObject (Object (Foreign "a.txt"%string) (mkFs "hard" "")))
    (fst (fst (Fs_hard_List (mkFs "hard" "") "" tt))) /\
  Fs_hard_Copy (mkFs "hard" "") (Foreign "a.txt"%string) "c.txt" tt
  = (None, Some ErrorCantCopy, tt) /\
  exists y : fs_Object,
    Fs_hard_NewObject (mkFs "hard" "") "n.txt" tt = (Some y, None, tt) /\
    Fs_hard_Copy (mkFs "hard" "") y "c.txt" tt
    = (Some (Foreign "n.txt"%string), None, tt).
Proof.
  edestruct (@Copy_of_listed_object unit _ (mkFs "hard" "") ""%string
               "c.txt"%string tt tt) as (Hin & Hcopy & Hnew & _).
  - reflexivity.
  - reflexivity.
  - left. reflexivity.
  - split; [exact Hin|]. split.
    + destruct (Hcopy tt) as (_ & Hagain).
      apply (Hagain "a.txt"%string tt). reflexivity.
    + destruct (Hnew "n.txt"%string (Some (Foreign "n.txt"%string)) tt tt
                  eq_refl) as (y & Hy & _ & _ & Hcp).
      exists y. split; [exact Hy | exact (Hcp tt)].
Defined.

(** * The alist backend *)

Section AlistFacts.
Context {W : Type} `{alist.Env W}.

Lemma add_items_app (f : alist.Fs) (dir : string)
  (items : list alist.ListContent) (acc : list alist.entry) :
  fold_left (alist.add_item f dir) items acc
  = acc ++ fold_left (alist.add_item f dir) items [].
Proof.
  revert acc. induction items as [|item items IH]; intros acc.
  - simpl. now rewrite app_nil_r.
  - simpl. rewrite IH. rewrite (IH (alist.add_item f dir [] item)).
    rewrite app_assoc. f_equal.
    unfold alist.add_item. now destruct (alist.IsDir item).
Qed.

Lemma add_items_length (f : alist.Fs) (dir : string)
  (items : list alist.ListContent) (acc : list alist.entry) :
  length (fold_left (alist.add_item f dir) items acc)
  = (length acc + length items)%nat.
Proof.
  revert acc. induction items as [|item items IH]; intros acc.
  - simpl. lia.
  - simpl. rewrite IH. unfold alist.add_item.
    destruct (alist.IsDir item); rewrite length_app; simpl; lia.
Qed.

(** The pages that are full take the loop on, one turn each. *)
Lemma List_pages_full (f : alist.Fs) (dir remoteDir : string)
  (fulls : list alist.ListResponse) (page page' : Z) (w w' : W)
  (fuel : nat) (entries : list alist.entry) :
  Forall alist.full_page fulls ->
  alist.serves remoteDir page w fulls page' w' ->
  alist.List_pages (length fulls + fuel) f dir remoteDir page entries w
  = alist.List_pages fuel f dir remoteDir page'
      (fold_left
         (fun acc temp =>
            fold_left (alist.add_item f dir) (alist.Content temp) acc)
         fulls entries)
      w'.
Proof.
  intros Hfull Hserves. revert entries.
  induction Hserves as [page w | page w temp w1 resps page' w' Hcall _ IH];
    intros entries; [reflexivity|].
  apply Forall_cons_iff in Hfull as ((Hcode & Hlen) & Hfull).
  simpl. rewrite Hcall, Hcode, Hlen. simpl. apply IH. assumption.
Qed.

(** X10. [Fs.List] asks for page 1, 2, ... and stops at the first page that
    has fewer than thirty entries: when the server answers code 200 each
    time, first with full pages and then with a shorter one, the result is
    the entries of all these pages in order, without an error, after one
    call for each page; a listing of a multiple of thirty entries costs one
    more call, for an empty page. *)
Theorem List_all_pages (f : alist.Fs) (dir : string)
  (fulls : list alist.ListResponse) (last : alist.ListResponse)
  (page' : Z) (w w' : W) (fuel : nat) :
  Forall alist.full_page fulls ->
  alist.Code last = 200 ->
  (length (alist.Content last) < 30)%nat ->
  alist.serves (alist.path_Join ["/"%string; alist.root f; dir]) 1 w
    (fulls ++ [last]) page' w' ->
  (length fulls < fuel)%nat ->
  exists entries,
    alist.List fuel f dir w = Some (entries, None, w') /\
    entries = alist.entries_of f dir (fulls ++ [last]) /\
    length entries
    = (30 * length fulls + length (alist.Content last))%nat.
Proof.
  intros Hfull Hcode Hshort Hserves Hfuel.
  assert (exists page1 w1,
             alist.serves (alist.path_Join ["/"%string; alist.root f; dir]) 1 w
               fulls page1 w1 /\
             alist.CallJSON_list w1
               (alist.path_Join ["/"%string; alist.root f; dir]) page1
             = (inl last, w')) as (page1 & w1 & Hfulls & Hlast).
  { clear Hfull Hfuel. remember (fulls ++ [last]) as resps eqn:Hresps.
    revert fulls Hresps.
    induction Hserves as [page w | page w temp w1 resps page' w' Hcall Hrest IH];
      intros fulls Hresps.
    - destruct fulls; discriminate.
    - destruct fulls as [|full fulls]; simpl in Hresps.
      + invert_result Hresps. inversion Hrest; subst.
        exists page, w. split; [constructor | assumption].
      + invert_result Hresps.
        destruct (IH fulls eq_refl) as (page1 & w2 & Hfulls & Hlast).
        exists page1, w2. split; [|assumption].
        econstructor; eassumption. }
  eexists. split; [|split].
  - unfold alist.List.
    replace fuel with (length fulls + S (fuel - S (length fulls)))%nat by lia.
    rewrite (List_pages_full _ _ _ _ _ _ _ _ _ _ Hfull Hfulls).
    simpl. rewrite Hlast, Hcode. simpl.
    apply Nat.ltb_lt in Hshort. rewrite Hshort. reflexivity.
  - unfold alist.entries_of. now rewrite fold_left_app.
  - clear Hserves Hfulls. rewrite add_items_length.
    assert (forall acc,
               length (fold_left
                         (fun acc temp =>
                            fold_left (alist.add_item f dir)
                              (alist.Content temp) acc) fulls acc)
               = (length acc + 30 * length fulls)%nat) as Hlen.
    { clear - Hfull.
      induction Hfull as [|full fulls (_ & Hthirty) _ IH]; intros acc;
        cbn [fold_left length]; [lia|].
      rewrite IH, add_items_length, Hthirty. lia. }
    rewrite Hlen. cbn [length]. lia.
Qed.

(** X11. When a later page fails, [Fs.List] treats what it has listed so far
    in three ways: on code 500 it returns no entries with
    [ErrorObjectNotFound]; on any other code than 200 it returns the entries
    of the pages before with the message and code of the server; on an error
    of the call itself it returns the entries of the pages before with that
    error. *)
Theorem List_failing_page (f : alist.Fs) (dir : string)
  (fulls : list alist.ListResponse) (page' : Z) (w w1 w2 : W) (fuel : nat)
  (answer : alist.ListResponse + error) :
  Forall alist.full_page fulls ->
  alist.serves (alist.path_Join ["/"%string; alist.root f; dir]) 1 w
    fulls page' w1 ->
  alist.CallJSON_list w1 (alist.path_Join ["/"%string; alist.root f; dir])
    page' = (answer, w2) ->
  (length fulls < fuel)%nat ->
  match answer with
  | inr e =>
      alist.List fuel f dir w
      = Some (alist.entries_of f dir fulls, Some (alist.Transport e), w2)
  | inl temp =>
      (alist.Code temp = 500 ->
       alist.List fuel f dir w
       = Some ([], Some alist.ErrorObjectNotFound, w2)) /\
      (alist.Code temp <> 500 -> alist.Code temp <> 200 ->
       alist.List fuel f dir w
       = Some (alist.entries_of f dir fulls,
               Some (alist.InstanceSays (alist.Message temp)
                       (alist.Code temp)), w2))
  end.
Proof.
  intros Hfull Hserves Hcall Hfuel. unfold alist.List.
  replace fuel with (length fulls + S (fuel - S (length fulls)))%nat by lia.
  rewrite (List_pages_full _ _ _ _ _ _ _ _ _ _ Hfull Hserves).
  simpl. rewrite Hcall. destruct answer as [temp|e]; [|reflexivity].
  split.
  - intros ->. reflexivity.
  - intros H500 H200.
    destruct (Z.eqb_spec (alist.Code temp) 500); [contradiction|].
    destruct (Z.eqb_spec (alist.Code temp) 200); [contradiction|].
    reflexivity.
Qed.

Lemma optionsFixed_fold (o : alist.Object) (options acc : list OpenOption) :
  fold_left
    (fun fixed opt =>
       match opt with
       | RangeOption Start End =>
           if (alist.size o =? 0) && (Start =? 0) && (0 <? End) then fixed
           else fixed ++ [opt]
       | _ => fixed ++ [opt]
       end)
    options acc
  = acc ++ alist.optionsFixed o options.
Proof.
  unfold alist.optionsFixed. revert acc.
  induction options as [|opt options IH]; intros acc.
  - simpl. now rewrite app_nil_r.
  - simpl. rewrite IH. symmetry. rewrite IH. symmetry.
    destruct opt as [x | s e | hd]; simpl; try now rewrite <- app_assoc.
    destruct ((alist.size o =? 0) && (s =? 0) && (0 <? e)); simpl;
      [reflexivity | now rewrite <- app_assoc].
Qed.

Lemma optionsFixed_app (o : alist.Object) (l1 l2 : list OpenOption) :
  alist.optionsFixed o (l1 ++ l2)
  = alist.optionsFixed o l1 ++ alist.optionsFixed o l2.
Proof.
  unfold alist.optionsFixed at 1. rewrite fold_left_app.
  fold (alist.optionsFixed o l1). apply optionsFixed_fold.
Qed.

(** X12. [Object.Open] of alist sends the options of the caller to the
    server unchanged when the file is not empty. For an empty file it
    leaves out the ranges that start at 0 and end above 0 and keeps every
    other option, seeks included, in the order given. *)
Theorem Open_options_sent (o : alist.Object) (options : list OpenOption) :
  (alist.size o <> 0 -> alist.optionsFixed o options = options) /\
  (alist.size o = 0 ->
   alist.optionsFixed o options
   = List.filter
       (fun opt =>
          match opt with
          | RangeOption s e => negb ((s =? 0) && (0 <? e))
          | _ => true
          end)
       options) /\
  (forall w,
     alist.Open o options w
     = alist.Call w (alist.path_Join ["/"%string; alist.remotePath o])
         (alist.optionsFixed o options)).
Proof.
  split; [|split].
  - intros Hsize. induction options as [|opt options IH]; [reflexivity|].
    change (opt :: options) with ([opt] ++ options).
    rewrite optionsFixed_app, IH. f_equal.
    unfold alist.optionsFixed. destruct opt as [x | s e | hd]; simpl; auto.
    destruct (Z.eqb_spec (alist.size o) 0); [contradiction | reflexivity].
  - intros Hsize. induction options as [|opt options IH]; [reflexivity|].
    change (opt :: options) with ([opt] ++ options).
    rewrite optionsFixed_app, IH.
    unfold alist.optionsFixed. destruct opt as [x | s e | hd]; simpl; auto.
    rewrite Hsize. simpl.
    destruct ((s =? 0) && (0 <? e)); reflexivity.
  - intros w. unfold alist.Open.
    now destruct (alist.Call _ _ _) as [[body|e] w1].
Qed.

(** X13. What [appendSeekOption] adds for the reader is never left out by
    [Object.Open] of alist, empty file or not: fixing the options after
    the seek or range was appended is the same as appending it to the fixed
    options. *)
Theorem appended_directive_survives (o : alist.Object)
  (options : list OpenOption) (offset limit : Z) :
  alist.optionsFixed o (appendSeekOption options offset limit)
  = appendSeekOption (alist.optionsFixed o options) offset limit.
Proof.
  unfold appendSeekOption.
  destruct (limit =? -1); destruct (Z.ltb_spec 0 offset) as [Hpos|Hnot];
    try reflexivity; rewrite optionsFixed_app; f_equal.
  unfold alist.optionsFixed. simpl.
  destruct (Z.eqb_spec offset 0); [lia|].
  now rewrite andb_false_r.
Qed.

End AlistFacts.

Lemma List_all_pages_witness :
  exists entries : list alist.entry,
    alist.List 2 sample_alist_Fs "dir" (pages_then sample_short_page)
    = Some (entries, None, []) /\
    length entries = 31%nat.
Proof.
  edestruct (@List_all_pages _ alist.playback sample_alist_Fs "dir"%string
               [sample_full_page] sample_short_page
               (add64 (add64 1 1) 1) (pages_then sample_short_page) []
               2%nat)
    as (entries & Hlist & _ & Hlen).
  - repeat constructor.
  - reflexivity.
  - simpl. lia.
  - eapply alist.serves_cons; [reflexivity|].
    eapply alist.serves_cons; [reflexivity|]. apply alist.serves_nil.
  - simpl. apply Nat.lt_succ_diag_r.
  - exists entries. split; [exact Hlist | exact Hlen].
Defined.

Lemma List_failing_page_witness :
  alist.List 2 sample_alist_Fs "dir"
    (pages_then (alist.mkResponse 500 [] "object not found"))
  = Some ([], Some alist.ErrorObjectNotFound, []) /\
  exists entries : list alist.entry,
    alist.List 2 sample_alist_Fs "dir"
      (pages_then (alist.mkResponse 403 [] "denied"))
    = Some (entries, Some (alist.InstanceSays "denied" 403), []) /\
    length entries = 30%nat.
Proof.
  split.
  - edestruct (@List_failing_page _ alist.playback sample_alist_Fs
                 "dir"%string [sample_full_page] (add64 1 1)
                 (pages_then (alist.mkResponse 500 [] "object not found"))
                 [inl (alist.mkResponse 500 [] "object not found")] []
                 2%nat (inl (alist.mkResponse 500 [] "object not found")))
      as (H500 & _).
    + repeat constructor.
    + eapply alist.serves_cons; [reflexivity | apply alist.serves_nil].
    + reflexivity.
    + simpl. apply Nat.lt_succ_diag_r.
    + apply H500. reflexivity.
  - edestruct (@List_failing_page _ alist.playback sample_alist_Fs
                 "dir"%string [sample_full_page] (add64 1 1)
                 (pages_then (alist.mkResponse 403 [] "denied"))
                 [inl (alist.mkResponse 403 [] "denied")] []
                 2%nat (inl (alist.mkResponse 403 [] "denied")))
      as (_ & Hother).
    + repeat constructor.
    + eapply alist.serves_cons; [reflexivity | apply alist.serves_nil].
    + reflexivity.
    + simpl. apply Nat.lt_succ_diag_r.
    + eexists. split; [apply Hother; discriminate | reflexivity].
Defined.

Lemma Open_options_sent_witness :
  alist.optionsFixed (sample_file 7) [RangeOption 0 5; SeekOption 2]
  = [RangeOption 0 5; SeekOption 2] /\
  alist.optionsFixed (sample_file 0)
    [RangeOption 0 5; SeekOption 2; RangeOption 1 5]
  = [SeekOption 2; RangeOption 1 5].
Proof.
  split.
  - apply (Open_options_sent (sample_file 7)). simpl. lia.
  - destruct (Open_options_sent (sample_file 0)
                [RangeOption 0 5; SeekOption 2; RangeOption 1 5])
      as (_ & Hempty & _).
    rewrite Hempty; reflexivity.
Defined.

(** * Reading from a remote that serves the bytes of the object *)

Lemma requested_start_passthrough (opts : list OpenOption) (start : Z) :
  forallb is_passthrough opts = true ->
  fold_left
    (fun start opt =>
       match opt with
       | SeekOption x => x
       | RangeOption s _ => s
       | OtherOption _ => start
       end)
    opts start
  = start.
Proof.
  revert start. induction opts as [|opt opts IH]; intros start Hall;
    [reflexivity|].
  simpl in Hall. apply andb_prop in Hall as (Hopt & Hall).
  destruct opt; try discriminate. simpl. now apply IH.
Qed.

Lemma requested_start_appended (opts : list OpenOption) (offset limit : Z) :
  forallb is_passthrough opts = true -> 0 <= offset ->
  requested_start (appendSeekOption opts offset limit) = offset.
Proof.
  intros Hall Hoff. unfold appendSeekOption, requested_start.
  destruct (limit =? -1); destruct (Z.ltb_spec 0 offset);
    rewrite ?fold_left_app, (requested_start_passthrough opts 0 Hall);
    simpl; lia.
Qed.

Section ContentFacts.
Context {W : Type} `{Remote W}.
Variables (obj : Obj) (content : list byte) (pos : W -> Handle -> Z).
Hypothesis Hserves : serves_content obj content pos.
Hypothesis Hsize : Z.of_nat (length content) <= max_int64.

(** Bytes that follow a position end within the object. *)
Lemma prefix_in_range (q : Z) (data rest : list byte) :
  0 <= q <= max_int64 ->
  skipn (Z.to_nat q) content = data ++ rest ->
  q + Z.of_nat (length data) <= max_int64.
Proof.
  intros Hq Hpre. apply (f_equal (@length byte)) in Hpre.
  rewrite length_skipn, length_app in Hpre. lia.
Qed.

Lemma skipn_past_prefix (q : Z) (data rest : list byte) :
  0 <= q ->
  skipn (Z.to_nat q) content = data ++ rest ->
  skipn (Z.to_nat (q + Z.of_nat (length data))) content = rest.
Proof.
  intros Hq Hpre.
  replace (Z.to_nat (q + Z.of_nat (length data)))
    with (length data + Z.to_nat q)%nat by lia.
  rewrite <- skipn_skipn, Hpre.
  rewrite skipn_app, skipn_all, Nat.sub_diag. reflexivity.
Qed.

Lemma read_stream_served (p : nat) (r : hardReader) (h : Handle) (w : W)
  (t : turn) (r1 : hardReader) (w1 : W) :
  in_step obj pos r w -> rc r = Some h ->
  read_stream p r h w = (t, r1, w1) ->
  match t with
  | Continue => in_step obj pos r1 w1
  | Return n data err => served obj content pos r data err r1 w1
  | Panic => False
  end.
Proof.
  intros (Ho & Hopts & Hoff & Hpos) Hrc. unfold read_stream.
  destruct (ReadCloser_Read w h p) as [[data err] w'] eqn:Hrd.
  destruct Hserves as (_ & Hread).
  destruct (Hread _ _ _ _ _ _ Hrd) as ((rest & Hpre) & Hmove).
  rewrite (Hpos h Hrc) in Hpre, Hmove.
  pose proof (prefix_in_range _ _ _ Hoff Hpre) as Hfit.
  assert (add64 (offset r) (Z.of_nat (length data))
          = offset r + Z.of_nat (length data)) as Hadd.
  { apply add64_no_overflow; [unfold int64, min_int64; lia | lia | lia]. }
  destruct err as [e|].
  - destruct (is_EOF e) eqn:He.
    + intros Heq; invert_result Heq. split; [eauto | discriminate].
    + destruct (0 <? Z.of_nat (length data)); intros Heq; invert_result Heq.
      * split; [eauto|]. intros _. unfold in_step. simpl. rewrite Hadd.
        repeat split; try assumption; try lia. discriminate.
      * unfold in_step. simpl.
        repeat split; try assumption; try lia. discriminate.
  - intros Heq; invert_result Heq. split; [eauto|]. intros _.
    unfold in_step. simpl. rewrite Hadd.
    repeat split; try assumption; try lia.
    intros h' Hh'. rewrite Hrc in Hh'. now invert_result Hh'.
Qed.

Lemma Read_turn_served (p : nat) (r : hardReader) (w : W)
  (t : turn) (r1 : hardReader) (w1 : W) :
  in_step obj pos r w ->
  Read_turn p r w = (t, r1, w1) ->
  match t with
  | Continue => in_step obj pos r1 w1
  | Return n data err => served obj content pos r data err r1 w1
  | Panic => False
  end.
Proof.
  intros Hstep. pose proof Hstep as (Ho & Hopts & Hoff & Hpos).
  unfold Read_turn, open_if_nil. destruct (rc r) as [h|] eqn:Hrc.
  - apply read_stream_served; assumption.
  - rewrite Ho. simpl app.
    destruct (fs_Object_Open w obj _) as [[h|e] w'] eqn:Hopen.
    + intros Hrd.
      assert (in_step obj pos (set_rc r (Some h)) w') as Hstep'.
      { unfold in_step. simpl. repeat split; try assumption; try lia.
        intros h' Hh'. invert_result Hh'.
        destruct Hserves as (Hstart & _).
        rewrite (Hstart _ _ _ _ Hopen).
        apply requested_start_appended; [assumption | lia]. }
      apply (read_stream_served _ _ _ _ _ _ _ Hstep' eq_refl) in Hrd.
      destruct t; try assumption.
    + intros Heq; invert_result Heq. unfold in_step. simpl.
      repeat split; try assumption; try lia. discriminate.
Qed.

Lemma Read_loop_served (fuel p : nat) (r : hardReader) (w : W)
  (out : outcome) (r' : hardReader) (w' : W) :
  in_step obj pos r w ->
  Read_loop fuel p r w = Some (out, r', w') ->
  match out with
  | Returned n data err => served obj content pos r data err r' w'
  | Panicked => False
  end.
Proof.
  revert r w. induction fuel as [|fuel IH]; intros r w Hstep; [discriminate|].
  rewrite Read_loop_S.
  destruct (Read_turn p r w) as [[t r1] w1] eqn:Hturn.
  pose proof (Read_turn_served _ _ _ _ _ _ Hstep Hturn) as Hserved.
  apply Read_turn_effect in Hturn as (_ & _ & _ & _ & Heff).
  destruct t as [ | n data err | ].
  - intros Hrest. destruct Heff as (_ & Hoff & _).
    specialize (IH _ _ Hserved Hrest).
    destruct out as [n data err|]; [|assumption].
    unfold served in *. now rewrite <- Hoff.
  - intros Heq; invert_result Heq. assumption.
  - contradiction.
Qed.

Lemma Read_served (fuel p : nat) (r : hardReader) (w : W)
  (out : outcome) (r' : hardReader) (w' : W) :
  in_step obj pos r w ->
  hardReader_Read fuel p r w = Some (out, r', w') ->
  match out with
  | Returned n data err => served obj content pos r data err r' w'
  | Panicked => False
  end.
Proof.
  intros Hstep. unfold hardReader_Read.
  destruct (closed r).
  { intros Heq; invert_result Heq. split; [simpl; eauto | discriminate]. }
  destruct (eofReached r).
  { intros Heq; invert_result Heq. split; [simpl; eauto | discriminate]. }
  destruct (negb (limit r =? -1) && (limit r <=? offset r)).
  { intros Heq; invert_result Heq. split; [simpl; eauto | discriminate]. }
  now apply Read_loop_served.
Qed.

Lemma Read_calls_nothing_more (fuel : nat) (ps : list nat) (r : hardReader)
  (w : W) (outs : list outcome) (r' : hardReader) (w' : W) :
  closed r = true \/ eofReached r = true ->
  Read_calls fuel ps r w = Some (outs, r', w') ->
  concat (map data_of outs) = [].
Proof.
  intros Hdone. revert outs. induction ps as [|p ps IH]; intros outs Hrun.
  - now invert_result Hrun.
  - apply Read_calls_cons in Hrun
      as (out & r1 & w1 & outs' & Hcall & Hrest & ->).
    destruct (closed r) eqn:Hcl.
    + rewrite (Read_closed _ _ _ _ Hcl) in Hcall. invert_result Hcall.
      simpl. now apply IH.
    + destruct Hdone as [? | Heof]; [discriminate|].
      rewrite (Read_at_eof _ _ _ _ Hcl Heof) in Hcall. invert_result Hcall.
      simpl. now apply IH.
Qed.

(** X14. On a remote whose streams start where the open options ask and
    give the bytes of the object in order, the bytes that successive [Read]
    calls return, put together, are the bytes of the object from the
    reader's offset on: none is left out, repeated or out of place, however
    many [Open] calls fail and reads break in between. The object is of a
    size that fits [int64]. *)
Theorem reads_give_the_object_from_offset (fuel : nat) (ps : list nat)
  (r : hardReader) (w : W) (outs : list outcome) (r' : hardReader) (w' : W) :
  in_step obj pos r w ->
  Read_calls fuel ps r w = Some (outs, r', w') ->
  exists rest,
    skipn (Z.to_nat (offset r)) content = concat (map data_of outs) ++ rest.
Proof.
  revert r w outs. induction ps as [|p ps IH]; intros r w outs Hstep Hrun.
  - invert_result Hrun. simpl. eauto.
  - apply Read_calls_cons in Hrun
      as (out & r1 & w1 & outs' & Hcall & Hrest & ->).
    pose proof (Read_served _ _ _ _ _ _ _ Hstep Hcall) as Hserved.
    apply Read_effect in Hcall as (_ & _ & _ & _ & Heff).
    destruct out as [n data err|]; [|contradiction].
    destruct Hserved as ((rest & Hpre) & Hnext).
    destruct Hstep as (_ & _ & Hoff & _).
    destruct Heff as (-> & [(-> & Hadd & _) | Hstop]).
    + destruct (IH _ _ _ (Hnext eq_refl) Hrest) as (rest' & Hpre').
      rewrite Hadd, add64_no_overflow in Hpre'
        by (unfold int64, min_int64; try lia;
            apply (prefix_in_range _ _ _ Hoff Hpre)).
      rewrite (skipn_past_prefix _ _ _ (proj1 Hoff) Hpre) in Hpre'.
      exists rest'. simpl. rewrite Hpre, Hpre'. now rewrite app_assoc.
    + assert (closed r1 = true \/ eofReached r1 = true) as Hdone.
      { destruct Hstop as [(_ & _ & Heof) | (_ & -> & Hcl & _)]; auto. }
      exists rest. simpl.
      rewrite (Read_calls_nothing_more _ _ _ _ _ _ _ Hdone Hrest).
      now rewrite app_nil_r.
Qed.

End ContentFacts.

Lemma content_remote_serves (content : list byte) :
  @serves_content content_world (content_remote content) the_file content
    content_pos.
Proof.
  split.
  - intros w opts h w1. simpl. unfold content_Open, content_pos.
    destruct (faults w) as [|[|] rest]; intros Heq; invert_result Heq; simpl.
    + now rewrite list_lookup_middle.
    + now rewrite list_lookup_middle.
  - intros w h p data err w1. simpl. unfold content_Read, content_pos.
    destruct (positions w !! h) as [q|] eqn:Hq.
    + intros Heq; invert_result Heq. simpl. split.
      * eexists. symmetry. apply firstn_skipn.
      * rewrite list_lookup_insert_eq; [reflexivity|].
        eapply lookup_lt_Some; eassumption.
    + intros Heq; invert_result Heq. rewrite Hq. split.
      * eexists. reflexivity.
      * simpl. lia.
Qed.

Lemma reads_give_the_object_from_offset_witness :
  exists (outs : list outcome) (r' : hardReader) (w' : content_world),
    @Read_calls _ (content_remote ten_bytes) 3 [4; 4; 4; 4]%nat
      content_reader faulty_world = Some (outs, r', w') /\
    concat (map data_of outs) = bytes "3456789" /\
    exists rest,
      skipn 3 ten_bytes = concat (map data_of outs) ++ rest.
Proof.
  do 3 eexists. split; [reflexivity|]. split; [reflexivity|].
  eapply (@reads_give_the_object_from_offset content_world
           (content_remote ten_bytes) the_file ten_bytes content_pos
           (content_remote_serves ten_bytes)
           ltac:(unfold max_int64; simpl; lia)
           3 [4; 4; 4; 4]%nat content_reader faulty_world).
  - unfold in_step, max_int64. simpl.
    split; [reflexivity|]. split; [reflexivity|]. split; [lia|].
    intros h Hh. discriminate Hh.
  - reflexivity.
Defined.

(** * More on single calls *)

Section SingleCalls.
Context {W : Type} `{Remote W}.

Lemma retries_same_fields (p : nat) (r : hardReader) (w : W)
  (r' : hardReader) (w' : W) (v : option Handle) :
  retries p r w r' w' -> set_rc r' v = set_rc r v.
Proof.
  intros Hre.
  apply retries_effect in Hre as (Ho & Hopts & Hlim & Hcl & Hoff & Heof & _).
  destruct r, r'; simpl in *. now subst.
Qed.

(** X15. An [EOF] of the stream ends the reader for good, wherever the
    offset stands and whatever the limit is: the call returns the bytes that
    came with it together with [EOF], the offset stays where it was, and
    every later [Read] returns [(0, EOF)] without a call on the remote. The
    reader does not open the remote again to see whether more would come. *)
Theorem stream_EOF_is_final (p : nat) (r : hardReader) (w : W)
  (r0 : hardReader) (w0 : W) (h : Handle) (r1 : hardReader) (w1 : W)
  (data : list byte) (w2 : W) :
  enters_loop r ->
  retries p r w r0 w0 ->
  open_if_nil r0 w0 = inl (h, r1, w1) ->
  ReadCloser_Read w1 h p = ((data, Some EOF), w2) ->
  let r' := set_eofReached (set_rc r (Some h)) true in
  (exists fuel0, forall fuel, (fuel0 <= fuel)%nat ->
     hardReader_Read fuel p r w
     = Some (Returned (Z.of_nat (length data)) data (Some EOF), r', w2)) /\
  offset r' = offset r /\
  forall (fuel : nat) (ps : list nat),
    Read_calls fuel ps r' w2
    = Some (repeat (Returned 0 [] (Some EOF)) (length ps), r', w2).
Proof.
  intros Henter Hre Hop Hrd r'. split; [|split].
  - assert (Read_turn p r0 w0
            = (Return (Z.of_nat (length data)) data (Some EOF), r', w2))
      as Hlast.
    { rewrite (Read_turn_read _ _ _ _ _ _ Hop).
      rewrite (read_stream_eof _ _ _ _ _ _ Hrd).
      subst r'. now rewrite (retries_same_fields _ _ _ _ _ _ Hre). }
    destruct (retries_then_return _ _ _ _ _ _ _ _ _ _ Hre Hlast)
      as (fuel0 & Hfuel0).
    exists fuel0. intros fuel Hle.
    rewrite (Read_enters_loop _ _ _ _ Henter). auto.
  - reflexivity.
  - intros fuel ps. apply Read_calls_at_eof; [|reflexivity].
    destruct Henter as (Hcl & _). exact Hcl.
Qed.


(** X17. [Read] does not make up an empty success: when a call returns no
    bytes and a nil error, the last thing it did was a read on the stream
    that itself returned no bytes and a nil error. Errors without bytes
    are tried again and not handed on as [(0, nil)]. *)
Theorem empty_success_is_the_streams (fuel p : nat) (r : hardReader) (w : W)
  (data : list byte) (r' : hardReader) (w' : W) :
  hardReader_Read fuel p r w = Some (Returned 0 data None, r', w') ->
  data = [] /\
  exists (r0 : hardReader) (w0 : W) (h : Handle) (r1 : hardReader) (w1 : W),
    retries p r w r0 w0 /\
    open_if_nil r0 w0 = inl (h, r1, w1) /\
    ReadCloser_Read w1 h p = (([], None), w').
Proof.
  unfold hardReader_Read.
  destruct (closed r); [discriminate|].
  destruct (eofReached r); [discriminate|].
  destruct (negb (limit r =? -1) && (limit r <=? offset r)); [discriminate|].
  intros Hloop.
  apply Read_loop_last_turn in Hloop as (r0 & w0 & t & Hre & Hlast & ->).
  unfold Read_turn in Hlast.
  destruct (open_if_nil r0 w0) as [[[h r1] w1]|[[t' r2] w2]] eqn:Hop.
  - unfold read_stream in Hlast.
    destruct (ReadCloser_Read w1 h p) as [[d err] w2] eqn:Hrd.
    destruct err as [e|].
    + destruct (is_EOF e); [discriminate|].
      destruct (Z.ltb_spec 0 (Z.of_nat (length d))) as [Hpos|_];
        [|discriminate].
      invert_result Hlast. lia.
    + invert_result Hlast.
      assert (data = []) as -> by (destruct data; [reflexivity | discriminate]).
      split; [reflexivity|]. exists r0, w0, h, r1, w1. auto.
  - invert_result Hlast.
    apply open_if_nil_stop in Hop as (_ & [(Hp & _) | (Hc & _)]);
      discriminate.
Qed.

End SingleCalls.

Lemma stream_EOF_is_final_witness :
  exists (r' : hardReader) (w' : scripted),
    hardReader_Read 1 16 open_reader closing_world
    = Some (Returned 0 [] (Some EOF), r', w') /\
    offset r' = 6 /\ limit r' = 8 /\
    Read_calls 0 [16; 16]%nat r' w'
    = Some ([Returned 0 [] (Some EOF); Returned 0 [] (Some EOF)], r', w').
Proof.
  edestruct (@stream_EOF_is_final scripted _ 16 open_reader
               closing_world open_reader
               closing_world 0%nat)
    as ((fuel0 & Hcall) & Hoff & Hlater).
  - unfold enters_loop. simpl. split; [reflexivity|].
    split; [reflexivity|]. right. lia.
  - apply retries_refl.
  - reflexivity.
  - reflexivity.
  - do 2 eexists. split; [reflexivity|]. split; [exact Hoff|].
    split; [reflexivity|]. apply (Hlater 0%nat [16; 16]%nat).
Defined.


Lemma empty_success_is_the_streams_witness :
  exists (w1 w' : scripted),
    ReadCloser_Read w1 0%nat 16 = (([], None), w').
Proof.
  edestruct (@empty_success_is_the_streams scripted _ 1 16 scenario_reader
               (mkScripted 10 [inr (mkStream [([], None)] None)] [] []))
    as (_ & r0 & w0 & h & r1 & w1 & Hre & Hop & Hrd).
  - reflexivity.
  - inversion Hre; subst.
    + invert_result Hop. eexists. eexists. exact Hrd.
    + discriminate.
Defined.
